(** * Storage layer of the EVM kernel (kernel_evm/kernel/src/storage.rs)

    A shallow embedding of the storage module of the EVM kernel: path
    derivation, block and current-block storage, and the chunked
    transaction reassembly protocol, over a model of the durable store of
    the smart rollup host. *)

From Stdlib Require Import ZArith NArith Ascii String Strings.Byte.
From stdpp Require Import base list gmap strings pretty.

Open Scope N_scope.

(** ** Bytes and fixed-width little-endian integers *)

Abbreviation bytes := (list Byte.byte).

Definition byte_of_N (n : N) : Byte.byte :=
  match Byte.of_N n with Some b => b | None => Byte.x00 end.

(** [to_le w n]: the [w]-byte little-endian encoding of [n], as
    [U256::to_little_endian] (w = 32) and [u16::to_le_bytes] (w = 2) write
    it; bits above [8 w] are dropped. *)
Fixpoint to_le (w : nat) (n : N) : bytes :=
  match w with
  | O => []
  | S w' => byte_of_N (n mod 256) :: to_le w' (n / 256)
  end.

(** [from_le]: [U256::from_little_endian] and [u16::from_le_bytes]. *)
Fixpoint from_le (l : bytes) : N :=
  match l with
  | [] => 0
  | b :: l' => Byte.to_N b + 256 * from_le l'
  end.

(** ** Paths *)

(** A path of the durable store is the list of its segments:
    [/evm/blocks/current] is [["evm"; "blocks"; "current"]]. *)
Abbreviation path := (list string).

Definition is_digit (c : ascii) : bool :=
  let n := Ascii.nat_of_ascii c in ((48 <=? n) && (n <=? 57))%nat.

Definition is_path_char (c : ascii) : bool :=
  let n := Ascii.nat_of_ascii c in
  is_digit c || ((65 <=? n) && (n <=? 90))%nat
  || ((97 <=? n) && (n <=? 122))%nat
  || bool_decide (c = "."%char) || bool_decide (c = "_"%char)
  || bool_decide (c = "-"%char).

Fixpoint string_forallb (f : ascii -> bool) (s : string) : bool :=
  match s with
  | EmptyString => true
  | String c s' => f c && string_forallb f s'
  end.

Definition valid_segment (s : string) : bool :=
  negb (bool_decide (s = "")) && string_forallb is_path_char s.

(** Splitting the bytes after the leading [/] at every [/]. *)
Fixpoint split_slash (s : string) : list string :=
  match s with
  | EmptyString => [""]
  | String c s' =>
      if bool_decide (c = "/"%char) then "" :: split_slash s'
      else match split_slash s' with
           | seg :: rest => String c seg :: rest
           | [] => [String c ""]
           end
  end.

Inductive PathError := InvalidPath.

(** Modelled from the spec: [OwnedPath::try_from] of the host SDK (section 6:
    "Paths are /-delimited ASCII segment sequences; construction from
    malformed byte sequences fails with a path error"). A raw path is a
    [/] followed by non-empty segments of ASCII letters, digits, [.], [_]
    and [-], separated by [/]. *)
Definition path_of_raw (raw : string) : PathError + path :=
  match raw with
  | String c rest =>
      if bool_decide (c = "/"%char) then
        let segs := split_slash rest in
        if forallb valid_segment segs then inr segs else inl InvalidPath
      else inl InvalidPath
  | EmptyString => inl InvalidPath
  end.

(** The [RefPath] constants of storage.rs. *)
Definition SMART_ROLLUP_ADDRESS : path := ["metadata"; "smart_rollup_address"].
Definition EVM_CURRENT_BLOCK : path := ["evm"; "blocks"; "current"].
Definition EVM_BLOCKS : path := ["evm"; "blocks"].
Definition BLOCKS_NUMBER : path := ["number"].
Definition BLOCKS_HASH : path := ["hash"].
Definition BLOCKS_TRANSACTIONS : path := ["transactions"].
Definition EVM_TRANSACTIONS_RECEIPTS : path := ["evm"; "transactions_receipts"].
Definition EVM_TRANSACTIONS_OBJECTS : path := ["evm"; "transactions_objects"].
Definition CHUNKED_TRANSACTIONS : path := ["chunked_transactions"].
Definition CHUNKED_TRANSACTION_NUM_CHUNKS : path := ["num_chunks"].
Definition SIMULATION_RESULT : path := ["simulation_result"].

(** [hex::encode]: two lower-case hexadecimal digits per byte. *)
Definition hex_digit (n : N) : ascii :=
  match n with
  | 0 => "0" | 1 => "1" | 2 => "2" | 3 => "3" | 4 => "4" | 5 => "5"
  | 6 => "6" | 7 => "7" | 8 => "8" | 9 => "9" | 10 => "a" | 11 => "b"
  | 12 => "c" | 13 => "d" | 14 => "e" | _ => "f"
  end%char.

Fixpoint hex_encode (l : bytes) : string :=
  match l with
  | [] => ""
  | b :: l' =>
      String (hex_digit (Byte.to_N b / 16))
        (String (hex_digit (Byte.to_N b mod 16)) (hex_encode l'))
  end.

(** ** Errors *)

(** Errors of the host runtime ([RuntimeError]). *)
Inductive RuntimeError :=
  | PathNotFound
  | StoreInvalidAccess
  | StoreValueSizeExceeded.

(** [StorageError] of the kernel. *)
Inductive StorageError :=
  | InvalidLoadValue (expected actual : nat).

(** [crate::error::Error]. *)
Inductive Error :=
  | ErrRuntime (e : RuntimeError)
  | ErrStorage (e : StorageError)
  | ErrPath (e : PathError).

(** ** The durable store *)

(** [ValueType] of the host runtime, answered by [store_has]. *)
Inductive ValueType := Value | Subtree | ValueWithSubtree.

(** The host: the key-value tree of the durable store (a path maps to the
    value held at that node) and the log of the writes performed. *)
Record Host := mkHost {
  store : gmap path bytes;
  writes : list (path * nat * bytes)
}.

(** The host computations: state passing with early exit on error, as the
    [?] operator of the source. *)
Definition M (A : Type) : Type := Host -> Error + (A * Host).

Definition ret {A} (a : A) : M A := fun h => inr (a, h).
Definition fail {A} (e : Error) : M A := fun _ => inl e.
Definition bind {A B} (m : M A) (k : A -> M B) : M B :=
  fun h => match m h with inl e => inl e | inr (a, h') => k a h' end.
Definition lift {A} (r : Error + A) : M A :=
  match r with inl e => fail e | inr a => ret a end.
Definition lift_path {A} (r : PathError + A) : M A :=
  match r with inl e => fail (ErrPath e) | inr a => ret a end.

Notation "'let*' x := c 'in' k" := (bind c (fun x => k))
  (at level 200, x binder, c at level 100, k at level 200).

(** [strip_prefix p k = Some r] when [k = p ++ r]. *)
Fixpoint strip_prefix (p k : path) : option path :=
  match p, k with
  | [], _ => Some k
  | s :: p', t :: k' => if bool_decide (s = t) then strip_prefix p' k' else None
  | _ :: _, [] => None
  end.

Definition is_under (p k : path) : bool :=
  match strip_prefix p k with Some _ => true | None => false end.

Definition is_strictly_under (p k : path) : bool :=
  match strip_prefix p k with Some (_ :: _) => true | _ => false end.

(** The store-level maximum byte length of one read or one write
    ([tezos_smart_rollup_core::MAX_FILE_CHUNK_SIZE]). *)
Definition MAX_FILE_CHUNK_SIZE : nat := 2048.

Section Store.
Implicit Types (s : gmap path bytes) (p : path).

Definition has_subtree s p : bool :=
  existsb (fun kv => is_strictly_under p kv.1) (map_to_list s).

(** The direct children of [p]: first segments below [p] of the stored
    paths. *)
Definition children s p : gset string :=
  list_to_set (omap (fun kv => match strip_prefix p kv.1 with
                               | Some (c :: _) => Some c
                               | _ => None
                               end) (map_to_list s)).

Definition has_of s p : option ValueType :=
  match s !! p, has_subtree s p with
  | None, false => None
  | Some _, false => Some Value
  | None, true => Some Subtree
  | Some _, true => Some ValueWithSubtree
  end.

Definition delete_under s p : gmap path bytes :=
  filter (fun kv => is_under p kv.1 = false) s.

(** A byte-range write: [data] overwrites the bytes of the value from
    [off] on and extends it if needed; the bytes past the written range are
    kept. *)
Definition write_range (v : bytes) (off : nat) (data : bytes) : bytes :=
  take off v ++ data ++ drop (off + length data) v.

End Store.

(** Modelled from the spec: the durable store contract of the host runtime
    (section 6: [read], [write], [delete], [has], [value_size],
    [count_children]), with the store-level cap of section 4.3 on the bytes
    of a single write and of a single read. A read or a value size of a
    node without a value fails; a write extends a value only from its end;
    a delete of a path with nothing at or under it fails. *)
Definition store_has (p : path) : M (option ValueType) :=
  fun h => inr (has_of (store h) p, h).

Definition store_value_size (p : path) : M nat :=
  fun h => match store h !! p with
           | Some v => inr (length v, h)
           | None => inl (ErrRuntime PathNotFound)
           end.

Definition store_read (p : path) (off max_bytes : nat) : M bytes :=
  fun h => match store h !! p with
           | Some v =>
               if (off <=? length v)%nat
               then inr (take (Nat.min max_bytes MAX_FILE_CHUNK_SIZE) (drop off v), h)
               else inl (ErrRuntime StoreInvalidAccess)
           | None => inl (ErrRuntime PathNotFound)
           end.

Definition store_write (p : path) (data : bytes) (off : nat) : M unit :=
  fun h =>
    if (MAX_FILE_CHUNK_SIZE <? length data)%nat
    then inl (ErrRuntime StoreValueSizeExceeded)
    else
      let v := default [] (store h !! p) in
      if (off <=? length v)%nat
      then inr (tt, mkHost (<[p := write_range v off data]> (store h))
                           (writes h ++ [(p, off, data)]))
      else inl (ErrRuntime StoreInvalidAccess).

(** [store_delete] checks that something is stored at or under [p]
    ([check_path_exists]) and fails with [PathNotFound] otherwise. *)
Definition store_delete (p : path) : M unit :=
  fun h => match has_of (store h) p with
           | None => inl (ErrRuntime PathNotFound)
           | Some _ => inr (tt, mkHost (delete_under (store h) p) (writes h))
           end.

Definition store_count_subkeys (p : path) : M nat :=
  fun h => inr (size (children (store h) p), h).

(** [Runtime::store_read_slice]: reads at most [buf_len] bytes into a
    buffer of [buf_len] bytes and returns how many were read. *)
Definition runtime_store_read_slice (p : path) (off buf_len : nat) : M bytes :=
  store_read p off buf_len.

(** ** storage.rs *)

Definition ADDRESS_SIZE : nat := 20.
Definition WORD_SIZE : nat := 32.
Definition TRANSACTION_HASH_SIZE : nat := 32.
(** At most 128 transaction hashes are read or stored per block. *)
Definition MAX_TRANSACTION_HASHES : nat := TRANSACTION_HASH_SIZE * 128.

(** [TransactionHash] is [[u8; 32]]. *)
Abbreviation TransactionHash := bytes.

(** [path::concat]. *)
Definition concat (p1 p2 : path) : Error + path := inr (p1 ++ p2).

Definition store_read_empty_safe (p : path) (off max_bytes : nat) : M bytes :=
  let* stored_value_size := store_value_size p in
  if (stored_value_size =? 0)%nat then ret []
  else store_read p off max_bytes.

(** The buffer is [buf_len] zero bytes; the bytes read overwrite its
    beginning. *)
Definition store_read_slice (p : path) (buf_len expected_size : nat) : M bytes :=
  let* read := runtime_store_read_slice p 0 buf_len in
  let size := length read in
  if (size =? expected_size)%nat
  then ret (read ++ drop size (replicate buf_len Byte.x00))
  else fail (ErrStorage (InvalidLoadValue expected_size size)).

(** The buffer is [[0u8; 20]]. *)
Definition read_smart_rollup_address : M bytes :=
  let* buffer := store_read_slice SMART_ROLLUP_ADDRESS 20 20 in
  ret buffer.

Definition store_smart_rollup_address (smart_rollup_address : bytes) : M unit :=
  store_write SMART_ROLLUP_ADDRESS smart_rollup_address 0.

(** [Wei] is [U256]: [Wei::from_little_endian] reads the bytes as a
    little-endian number. *)
Definition read_u256 (p : path) : M N :=
  let* bytes := store_read p 0 WORD_SIZE in
  ret (from_le bytes).

(** [H160::from_slice] panics unless it is given exactly 20 bytes. *)
Definition H160_from_slice (b : bytes) : option bytes :=
  if (length b =? ADDRESS_SIZE)%nat then Some b else None.

(** [read_address]: [None] is the panic of [H160::from_slice]. *)
Definition read_address (p : path) (h : Host) : option (Error + (bytes * Host)) :=
  match store_read p 0 ADDRESS_SIZE h with
  | inl e => Some (inl e)
  | inr (bytes, h') =>
      match H160_from_slice bytes with
      | Some a => Some (inr (a, h'))
      | None => None
      end
  end.

(** The big-endian bytes of [value.into()] are all overwritten by
    [to_little_endian] before the write. *)
Definition write_u256 (p : path) (value : N) : M unit :=
  let bytes := to_le WORD_SIZE value in
  store_write p bytes 0.

Definition block_path (number : N) : Error + path :=
  match path_of_raw ("/" +:+ pretty number) with
  | inl e => inl (ErrPath e)
  | inr number_path => concat EVM_BLOCKS number_path
  end.

Definition receipt_path (receipt_hash : TransactionHash) : Error + path :=
  match path_of_raw ("/" +:+ hex_encode receipt_hash) with
  | inl e => inl (ErrPath e)
  | inr p => concat EVM_TRANSACTIONS_RECEIPTS p
  end.

Definition object_path (object_hash : TransactionHash) : Error + path :=
  match path_of_raw ("/" +:+ hex_encode object_hash) with
  | inl e => inl (ErrPath e)
  | inr p => concat EVM_TRANSACTIONS_OBJECTS p
  end.

Definition read_current_block_number : M N :=
  let* p := lift (concat EVM_CURRENT_BLOCK BLOCKS_NUMBER) in
  let* buffer := store_read_slice p 8 8 in
  ret (from_le buffer).

(** [slice::chunks(n)]: consecutive pieces of [n] elements, the last one
    possibly shorter. *)
Fixpoint chunks_go {A} (fuel n : nat) (l : list A) : list (list A) :=
  match fuel with
  | O => []
  | S fuel' =>
      match l with
      | [] => []
      | _ :: _ => take n l :: chunks_go fuel' n (drop n l)
      end
  end.

Definition chunks {A} (n : nat) (l : list A) : list (list A) :=
  chunks_go (length l) n l.

(** [<[u8; 32]>::try_from(slice).ok()]. *)
Definition try_into_hash (c : bytes) : option TransactionHash :=
  if (length c =? TRANSACTION_HASH_SIZE)%nat then Some c else None.

Definition read_nth_block_transactions (block_path : path) : M (list TransactionHash) :=
  let* p := lift (concat block_path BLOCKS_TRANSACTIONS) in
  let* transactions_bytes := store_read_empty_safe p 0 MAX_TRANSACTION_HASHES in
  ret (omap try_into_hash (chunks TRANSACTION_HASH_SIZE transactions_bytes)).

(** [L2Block], restricted to the fields this module reads or writes. *)
Record L2Block := mkL2Block {
  number : N;
  hash : bytes;
  transactions : list TransactionHash
}.

Definition store_block_number (block_path : path) (block_number : N) : M unit :=
  let* p := lift (concat block_path BLOCKS_NUMBER) in
  store_write p (to_le 32 block_number) 0.

Definition store_block_hash (block_path : path) (block_hash : bytes) : M unit :=
  let* p := lift (concat block_path BLOCKS_HASH) in
  store_write p block_hash 0.

Definition store_block_transactions (block_path : path)
    (block_transactions : list TransactionHash) : M unit :=
  let* p := lift (concat block_path BLOCKS_TRANSACTIONS) in
  store_write p (List.concat block_transactions) 0.

Definition store_block (block : L2Block) (block_path : path) : M unit :=
  let* _ := store_block_number block_path (number block) in
  let* _ := store_block_hash block_path (hash block) in
  store_block_transactions block_path (transactions block).

Definition store_block_by_number (block : L2Block) : M unit :=
  let* bp := lift (block_path (number block)) in
  store_block block bp.

Definition store_current_block_nodebug (block : L2Block) : M unit :=
  let current_block_path := EVM_CURRENT_BLOCK in
  let* _ := store_block_number current_block_path (number block) in
  store_block_by_number block.

(** [store_current_block]: [debug_msg!] only writes to the debug output,
    the result is the one of [store_current_block_nodebug]. *)
Definition store_current_block (block : L2Block) : M unit :=
  store_current_block_nodebug block.

Definition store_simulation_result (result : option bytes) : M unit :=
  match result with
  | Some r =>
      let* _ := store_write SIMULATION_RESULT r 0 in
      ret tt
  | None => ret tt
  end.

Section ReadCurrentBlock.
(** Modelled from the spec: [L2Block::new] of the [tezos_ethereum] crate,
    not in this repository, builds a block from its number and transaction
    list; the hash it gives the block is left abstract, a function of the
    number. *)
Variable L2Block_new_hash : N -> bytes.

Definition L2Block_new (n : N) (txs : list TransactionHash) : L2Block :=
  mkL2Block n (L2Block_new_hash n) txs.

Definition read_current_block_nodebug : M L2Block :=
  let* n := read_current_block_number in
  let* bp := lift (block_path n) in
  let* txs := read_nth_block_transactions bp in
  ret (L2Block_new n txs).

Definition read_current_block : M L2Block := read_current_block_nodebug.
End ReadCurrentBlock.

(** *** Chunked transactions *)

Definition chunked_transaction_path (tx_hash : TransactionHash) : Error + path :=
  match path_of_raw ("/" +:+ hex_encode tx_hash) with
  | inl e => inl (ErrPath e)
  | inr p => concat CHUNKED_TRANSACTIONS p
  end.

Definition chunked_transaction_num_chunks_path (cp : path) : Error + path :=
  concat cp CHUNKED_TRANSACTION_NUM_CHUNKS.

(** [i] is a [u16]. *)
Definition transaction_chunk_path (cp : path) (i : N) : Error + path :=
  match path_of_raw ("/" +:+ pretty i) with
  | inl e => inl (ErrPath e)
  | inr i_path => concat cp i_path
  end.

(** [n_subkeys] is the [u64] count cast [as u16], i.e. taken modulo
    [2^16]. *)
Definition is_transaction_complete (cp : path) (num_chunks : N) : M bool :=
  let* count := store_count_subkeys cp in
  let n_subkeys := N.of_nat count mod 65536 in
  ret (num_chunks <=? n_subkeys).

Definition chunked_transaction_num_chunks_by_path (cp : path) : M N :=
  let* p := lift (chunked_transaction_num_chunks_path cp) in
  let* buffer := store_read_slice p 2 2 in
  ret (from_le buffer).

Definition chunked_transaction_num_chunks (tx_hash : TransactionHash) : M N :=
  let* cp := lift (chunked_transaction_path tx_hash) in
  chunked_transaction_num_chunks_by_path cp.

Definition store_transaction_chunk_data (tcp : path) (data : bytes) : M unit :=
  let* vt := store_has tcp in
  match vt with
  | Some Value | Some ValueWithSubtree => ret tt
  | _ =>
      if (MAX_FILE_CHUNK_SIZE <? length data)%nat then
        let* _ := store_write tcp (take MAX_FILE_CHUNK_SIZE data) 0 in
        store_write tcp (drop MAX_FILE_CHUNK_SIZE data) MAX_FILE_CHUNK_SIZE
      else store_write tcp data 0
  end.

Definition read_transaction_chunk_data (tcp : path) : M bytes :=
  let* data_size := store_value_size tcp in
  if (MAX_FILE_CHUNK_SIZE <? data_size)%nat then
    let* data1 := store_read tcp 0 MAX_FILE_CHUNK_SIZE in
    let* data2 := store_read tcp MAX_FILE_CHUNK_SIZE MAX_FILE_CHUNK_SIZE in
    ret (data1 ++ data2)
  else store_read tcp 0 MAX_FILE_CHUNK_SIZE.

(** The loop of [get_full_transaction] over the indices [is]. *)
Fixpoint get_full_transaction_loop (cp : path) (is : list N) (missing_data : bytes)
    (buffer : bytes) : M bytes :=
  match is with
  | [] => ret buffer
  | i :: is' =>
      let* tcp := lift (transaction_chunk_path cp i) in
      let* vt := store_has tcp in
      let* buffer' :=
        match vt with
        | None => ret (buffer ++ missing_data)
        | Some _ =>
            let* data := read_transaction_chunk_data tcp in
            ret (buffer ++ data)
        end in
      get_full_transaction_loop cp is' missing_data buffer'
  end.

(** [0..num_chunks] as a list of [u16]. *)
Definition indices (num_chunks : N) : list N :=
  N.of_nat <$> seq 0 (N.to_nat num_chunks).

Definition get_full_transaction (cp : path) (num_chunks : N) (missing_data : bytes) : M bytes :=
  get_full_transaction_loop cp (indices num_chunks) missing_data [].

Definition remove_chunked_transaction_by_path (p : path) : M unit :=
  store_delete p.

Definition remove_chunked_transaction (tx_hash : TransactionHash) : M unit :=
  let* cp := lift (chunked_transaction_path tx_hash) in
  remove_chunked_transaction_by_path cp.

Definition store_transaction_chunk (tx_hash : TransactionHash) (i : N) (data : bytes)
    : M (option bytes) :=
  let* cp := lift (chunked_transaction_path tx_hash) in
  let* num_chunks := chunked_transaction_num_chunks_by_path cp in
  let* complete := is_transaction_complete cp num_chunks in
  if complete then
    let* full := get_full_transaction cp num_chunks data in
    let* _ := store_delete cp in
    ret (Some full)
  else
    let* tcp := lift (transaction_chunk_path cp i) in
    let* _ := store_transaction_chunk_data tcp data in
    ret None.

Definition create_chunked_transaction (tx_hash : TransactionHash) (num_chunks : N) : M unit :=
  let* cp := lift (chunked_transaction_path tx_hash) in
  let* np := lift (chunked_transaction_num_chunks_path cp) in
  store_write np (to_le 2 num_chunks) 0.

(** The inverse of [hex_digit] on [0..16). *)
Definition hex_value (c : ascii) : N :=
  match c with
  | "0" => 0 | "1" => 1 | "2" => 2 | "3" => 3 | "4" => 4 | "5" => 5
  | "6" => 6 | "7" => 7 | "8" => 8 | "9" => 9 | "a" => 10 | "b" => 11
  | "c" => 12 | "d" => 13 | "e" => 14 | "f" => 15 | _ => 0
  end%char.

(** ** Shapes of chunked-transaction subtrees *)

(** The subtree of a chunked transaction whose metadata says [n] and which
    holds the fragments of every index below [n] but [j], and nothing else. *)
Definition holds_all_but_one (s : gmap path bytes) (cp : path) (n j : N)
    (frag : N -> bytes) : Prop :=
  forall r v, s !! (cp ++ r) = Some v <->
    (r = ["num_chunks"] /\ v = to_le 2 n) \/
    (exists k, k < n /\ k <> j /\ r = [pretty k] /\ v = frag k).

(** The subtree of a chunked transaction whose metadata says [n] and which
    holds the fragments of the indices of [K], and nothing else. *)
Definition holds_fragments (s : gmap path bytes) (cp : path) (n : N) (K : list N)
    (frag : N -> bytes) : Prop :=
  forall r v, s !! (cp ++ r) = Some v <->
    (r = ["num_chunks"] /\ v = to_le 2 n) \/
    (exists k, k ∈ K /\ r = [pretty k] /\ v = frag k).

(** A store built from the metadata and a list of fragments. *)
Definition fragments_store (cp : path) (n : N) (K : list N) (frag : N -> bytes)
    : gmap path bytes :=
  <[cp ++ ["num_chunks"] := to_le 2 n]>
    (list_to_map ((fun k => (cp ++ [pretty k], frag k)) <$> K)).

(** The subtree of a chunked transaction of two expected fragments holding
    the fragments of all [2^16] indices [0 .. 65535]. *)
Definition all_indices_store (cp : path) : gmap path bytes :=
  fragments_store cp 2 (indices 65536) (fun _ => [Byte.x00]).

(** ** Stores written by [store_current_block] *)

(** The value at [p], if any, is no longer than [d]: writing [d] at offset
    0 leaves exactly [d] there. *)
Definition overwritten_by (s : gmap path bytes) (p : path) (d : bytes) : Prop :=
  (length (default [] (s !! p)) <= length d)%nat.

(** The host after the four writes of [store_current_block]. *)
Definition current_block_host (block : L2Block) (h : Host) : Host :=
  let n := number block in
  let bp := EVM_BLOCKS ++ [pretty n] in
  let pn := EVM_CURRENT_BLOCK ++ BLOCKS_NUMBER in
  let s0 := store h in
  let s1 := <[pn := write_range (default [] (s0 !! pn)) 0 (to_le 32 n)]> s0 in
  let s2 := <[bp ++ BLOCKS_NUMBER :=
                write_range (default [] (s1 !! (bp ++ BLOCKS_NUMBER))) 0 (to_le 32 n)]> s1 in
  let s3 := <[bp ++ BLOCKS_HASH :=
                write_range (default [] (s2 !! (bp ++ BLOCKS_HASH))) 0 (hash block)]> s2 in
  let s4 := <[bp ++ BLOCKS_TRANSACTIONS :=
                write_range (default [] (s3 !! (bp ++ BLOCKS_TRANSACTIONS))) 0
                  (List.concat (transactions block))]> s3 in
  mkHost s4 (writes h ++ [(pn, 0%nat, to_le 32 n);
                          (bp ++ BLOCKS_NUMBER, 0%nat, to_le 32 n);
                          (bp ++ BLOCKS_HASH, 0%nat, hash block);
                          (bp ++ BLOCKS_TRANSACTIONS, 0%nat, List.concat (transactions block))]).

(** * Proofs *)

(** ** Little-endian encoding *)

Lemma byte_of_N_to_N (n : N) : n < 256 -> Byte.to_N (byte_of_N n) = n.
Proof.
  intros Hn. unfold byte_of_N.
  destruct (Byte.of_N n) as [b|] eqn:E.
  - by apply Byte.to_of_N.
  - pose proof (Byte.to_of_N_option_map n) as Hm. rewrite E in Hm.
    simpl in Hm. destruct (N.leb n 255) eqn:Hle; [discriminate|].
    apply N.leb_gt in Hle. lia.
Qed.

Lemma from_le_to_le (w : nat) (n : N) : from_le (to_le w n) = n mod 2 ^ (8 * N.of_nat w).
Proof.
  revert n. induction w as [|w IH]; intros n; simpl.
  - by rewrite N.mod_1_r.
  - rewrite IH, byte_of_N_to_N by (apply N.mod_lt; lia).
    replace (2 ^ (8 * N.of_nat (S w))) with (256 * 2 ^ (8 * N.of_nat w)).
    2:{ rewrite Nat2N.inj_succ, N.mul_succ_r, N.add_comm, N.pow_add_r. lia. }
    rewrite N.Div0.mod_mul_r. lia.
Qed.

Lemma length_to_le (w : nat) (n : N) : length (to_le w n) = w.
Proof. revert n; induction w; intros; simpl; auto. Qed.

Lemma take_to_le (k w : nat) (n : N) : (k <= w)%nat -> take k (to_le w n) = to_le k n.
Proof.
  revert k n. induction w as [|w IH]; intros k n Hk.
  - destruct k; [done | lia].
  - destruct k; [done|]. simpl. f_equal. apply IH. lia.
Qed.

(** ** Path segments *)

Lemma pretty_N_char_digit (x : N) : is_digit (pretty_N_char x) = true.
Proof. unfold pretty_N_char. repeat case_match; reflexivity. Qed.

Lemma pretty_N_go_digits (x : N) (s : string) :
  string_forallb is_digit s = true ->
  string_forallb is_digit (pretty_N_go x s) = true /\ (s <> "" -> pretty_N_go x s <> "").
Proof.
  revert s. induction (N.lt_wf_0 x) as [x _ IH]; intros s Hs.
  destruct (decide (x = 0)) as [->|Hx].
  - rewrite pretty_N_go_0. auto.
  - rewrite pretty_N_go_step by lia.
    destruct (IH (x `div` 10) ltac:(apply N.div_lt; lia)
                (String (pretty_N_char (x `mod` 10)) s)) as [H1 H2].
    + simpl. by rewrite pretty_N_char_digit, Hs.
    + split; [done|]. intros _. by apply H2.
Qed.

Lemma pretty_digits (n : N) : string_forallb is_digit (pretty n) = true /\ pretty n <> "".
Proof.
  unfold pretty, pretty_N. case_decide; [done|].
  rewrite pretty_N_go_step by lia.
  destruct (pretty_N_go_digits (n `div` 10) (String (pretty_N_char (n `mod` 10)) ""))
    as [H1 H2].
  - simpl. by rewrite pretty_N_char_digit.
  - split; [done|]. by apply H2.
Qed.

Lemma digits_path_chars (s : string) :
  string_forallb is_digit s = true -> string_forallb is_path_char s = true.
Proof.
  induction s as [|c s IH]; simpl; [done|].
  intros [Hc Hs]%andb_prop. rewrite IH by done. unfold is_path_char. by rewrite Hc.
Qed.

Lemma split_slash_path_chars (s : string) :
  string_forallb is_path_char s = true -> split_slash s = [s].
Proof.
  induction s as [|c s IH]; simpl; [done|].
  intros [Hc Hs]%andb_prop. rewrite IH by done.
  rewrite bool_decide_false; [done|]. intros ->. discriminate Hc.
Qed.

Lemma path_of_raw_segment (s : string) :
  valid_segment s = true -> path_of_raw ("/" +:+ s) = inr [s].
Proof.
  intros Hv. pose proof Hv as Hc. unfold valid_segment in Hc.
  apply andb_prop in Hc as [_ Hc].
  change ("/" +:+ s) with (String "/" s). unfold path_of_raw.
  rewrite bool_decide_true by done. rewrite split_slash_path_chars by done.
  cbn [forallb]. by rewrite Hv.
Qed.

Lemma pretty_valid (n : N) : valid_segment (pretty n) = true.
Proof.
  destruct (pretty_digits n) as [Hd Hne]. unfold valid_segment.
  rewrite bool_decide_false by done. simpl. by apply digits_path_chars.
Qed.

Lemma pretty_first_digit (n : N) (c : ascii) (s : string) :
  pretty n = String c s -> is_digit c = true.
Proof.
  intros E. destruct (pretty_digits n) as [Hd _]. rewrite E in Hd.
  simpl in Hd. by apply andb_prop in Hd as [? _].
Qed.

Lemma pretty_ne_num_chunks (n : N) : pretty n <> "num_chunks".
Proof. intros E. apply pretty_first_digit in E. discriminate. Qed.

Lemma pretty_ne_current (n : N) : pretty n <> "current".
Proof. intros E. apply pretty_first_digit in E. discriminate. Qed.

Lemma hex_value_digit (n : N) : n < 16 -> hex_value (hex_digit n) = n.
Proof.
  intros Hn.
  assert (Hall : Forall (fun k => hex_value (hex_digit k) = k)
                        (N.of_nat <$> seq 0 16)) by (repeat constructor).
  rewrite Forall_forall in Hall. apply Hall.
  rewrite <- (N2Nat.id n). apply list_elem_of_fmap_2, elem_of_seq. lia.
Qed.

Lemma hex_digit_path_char (n : N) : is_path_char (hex_digit n) = true.
Proof. unfold hex_digit. repeat case_match; reflexivity. Qed.

Lemma hex_encode_path_chars (l : bytes) : string_forallb is_path_char (hex_encode l) = true.
Proof.
  induction l as [|b l IH]; simpl; [done|].
  by rewrite !hex_digit_path_char, IH.
Qed.

Lemma hex_valid (l : bytes) : l <> [] -> valid_segment (hex_encode l) = true.
Proof.
  intros Hl. unfold valid_segment. rewrite hex_encode_path_chars.
  destruct l; [done|]. by rewrite bool_decide_false.
Qed.

Lemma hex_encode_inj (a b : bytes) : hex_encode a = hex_encode b -> a = b.
Proof.
  revert b. induction a as [|x a IH]; intros [|y b]; simpl; intros H;
    try discriminate; [done|].
  injection H as H1 H2 H3.
  pose proof (Byte.to_N_bounded x). pose proof (Byte.to_N_bounded y).
  assert (Byte.to_N x = Byte.to_N y) as Hxy.
  { apply (f_equal hex_value) in H1, H2.
    rewrite !hex_value_digit in H1
      by (apply N.Div0.div_lt_upper_bound; lia).
    rewrite !hex_value_digit in H2 by (apply N.mod_lt; lia).
    rewrite (N.Div0.div_mod (Byte.to_N x) 16), (N.Div0.div_mod (Byte.to_N y) 16).
    lia. }
  f_equal; [|by apply IH].
  apply (f_equal Byte.of_N) in Hxy. rewrite !Byte.of_to_N in Hxy. by injection Hxy.
Qed.

(** ** Path derivations *)

Lemma block_path_eq (n : N) : block_path n = inr (EVM_BLOCKS ++ [pretty n]).
Proof. unfold block_path. by rewrite path_of_raw_segment by apply pretty_valid. Qed.

Lemma transaction_chunk_path_eq (cp : path) (i : N) :
  transaction_chunk_path cp i = inr (cp ++ [pretty i]).
Proof.
  unfold transaction_chunk_path. by rewrite path_of_raw_segment by apply pretty_valid.
Qed.

Lemma chunked_transaction_path_eq (tx_hash : bytes) :
  tx_hash <> [] ->
  chunked_transaction_path tx_hash = inr (CHUNKED_TRANSACTIONS ++ [hex_encode tx_hash]).
Proof.
  intros Hh. unfold chunked_transaction_path.
  by rewrite path_of_raw_segment by (by apply hex_valid).
Qed.

Lemma receipt_path_eq (tx_hash : bytes) :
  tx_hash <> [] ->
  receipt_path tx_hash = inr (EVM_TRANSACTIONS_RECEIPTS ++ [hex_encode tx_hash]).
Proof.
  intros Hh. unfold receipt_path. by rewrite path_of_raw_segment by (by apply hex_valid).
Qed.

Lemma object_path_eq (tx_hash : bytes) :
  tx_hash <> [] ->
  object_path tx_hash = inr (EVM_TRANSACTIONS_OBJECTS ++ [hex_encode tx_hash]).
Proof.
  intros Hh. unfold object_path. by rewrite path_of_raw_segment by (by apply hex_valid).
Qed.

(** The only way a hash-keyed path derivation fails: an empty hash, whose
    path would have an empty segment. *)
Lemma hash_path_error (tx_hash : bytes) (e : PathError) :
  path_of_raw ("/" +:+ hex_encode tx_hash) = inl e -> tx_hash = [] /\ e = InvalidPath.
Proof.
  destruct tx_hash as [|b l].
  - intros _. by destruct e.
  - rewrite path_of_raw_segment by (by apply hex_valid). discriminate.
Qed.

(** ** The store *)

Lemma strip_prefix_Some (p k r : path) : strip_prefix p k = Some r <-> k = p ++ r.
Proof.
  revert k. induction p as [|s p IH]; intros [|t k]; simpl.
  - split; congruence.
  - split; congruence.
  - split; [discriminate|]. intros [=].
  - case_bool_decide as Hst.
    + subst. rewrite IH. split; [by intros ->|]. by intros [= ->].
    + split; [discriminate|]. by intros [= -> _].
Qed.

Lemma strip_prefix_app (p r : path) : strip_prefix p (p ++ r) = Some r.
Proof. by apply strip_prefix_Some. Qed.

Lemma has_subtree_spec (s : gmap path bytes) (p : path) :
  has_subtree s p = true <-> exists r v, r <> [] /\ s !! (p ++ r) = Some v.
Proof.
  unfold has_subtree. rewrite existsb_exists. split.
  - intros [[k v] [Hin Hk]]. apply list_elem_of_In, elem_of_map_to_list in Hin.
    unfold is_strictly_under in Hk. simpl in Hk.
    destruct (strip_prefix p k) as [[|c r]|] eqn:E; try discriminate.
    apply strip_prefix_Some in E. subst. by exists (c :: r), v.
  - intros (r & v & Hr & Hv). exists (p ++ r, v). split.
    + by apply list_elem_of_In, elem_of_map_to_list.
    + unfold is_strictly_under. simpl. rewrite strip_prefix_app. by destruct r.
Qed.

Lemma elem_of_children (s : gmap path bytes) (p : path) (c : string) :
  c ∈ children s p <-> exists r v, s !! (p ++ c :: r) = Some v.
Proof.
  unfold children. rewrite elem_of_list_to_set, list_elem_of_omap. split.
  - intros [[k v] [Hin Hk]]. apply elem_of_map_to_list in Hin. simpl in Hk.
    destruct (strip_prefix p k) as [[|c' r]|] eqn:E; try discriminate.
    injection Hk as ->. apply strip_prefix_Some in E. subst. by exists r, v.
  - intros (r & v & Hv). exists (p ++ c :: r, v). split.
    + by apply elem_of_map_to_list.
    + simpl. by rewrite strip_prefix_app.
Qed.

Lemma has_of_None (s : gmap path bytes) (p : path) :
  has_of s p = None <->
  s !! p = None /\ (forall r v, r <> [] -> s !! (p ++ r) <> Some v).
Proof.
  unfold has_of. destruct (s !! p) eqn:Ep, (has_subtree s p) eqn:Es.
  - split; [discriminate|]. by intros [? _].
  - split; [discriminate|]. by intros [? _].
  - split; [discriminate|]. intros [_ H].
    apply has_subtree_spec in Es as (r & v & Hr & Hv). by destruct (H r v Hr).
  - split; [|done]. intros _. split; [done|]. intros r v Hr Hv.
    assert (has_subtree s p = true) by (apply has_subtree_spec; eauto).
    congruence.
Qed.

Lemma has_of_value (s : gmap path bytes) (p : path) (v : bytes) :
  s !! p = Some v -> has_of s p = Some Value \/ has_of s p = Some ValueWithSubtree.
Proof. unfold has_of. intros ->. destruct (has_subtree s p); auto. Qed.

Lemma lookup_delete_under (s : gmap path bytes) (p k : path) :
  delete_under s p !! k = if is_under p k then None else s !! k.
Proof.
  unfold delete_under. rewrite map_lookup_filter.
  destruct (s !! k) as [v|]; destruct (is_under p k) eqn:E; simpl;
    repeat case_guard; simpl in *; congruence.
Qed.

Lemma is_under_app (p r : path) : is_under p (p ++ r) = true.
Proof. unfold is_under. by rewrite strip_prefix_app. Qed.

Lemma has_of_delete_under (s : gmap path bytes) (p : path) :
  has_of (delete_under s p) p = None.
Proof.
  apply has_of_None. split.
  - rewrite lookup_delete_under.
    pose proof (is_under_app p []) as H. rewrite app_nil_r in H. by rewrite H.
  - intros r v _. by rewrite lookup_delete_under, is_under_app.
Qed.

Lemma store_delete_ok (h : Host) (p r : path) (v : bytes) :
  store h !! (p ++ r) = Some v ->
  store_delete p h = inr (tt, mkHost (delete_under (store h) p) (writes h)).
Proof.
  intros Hv. unfold store_delete.
  destruct (has_of (store h) p) eqn:E; [done |].
  apply has_of_None in E as [E1 E2]. destruct r as [| c r].
  - rewrite app_nil_r in Hv. congruence.
  - exfalso. by apply (E2 (c :: r) v).
Qed.

Lemma write_range_fresh (data : bytes) : write_range [] 0 data = data.
Proof. unfold write_range. simpl. by rewrite drop_nil, app_nil_r. Qed.

(** ** Host computations *)

Lemma bind_inr {A B} (m : M A) (k : A -> M B) (h h' : Host) (a : A) :
  m h = inr (a, h') -> bind m k h = k a h'.
Proof. unfold bind. by intros ->. Qed.

Lemma bind_inl {A B} (m : M A) (k : A -> M B) (h : Host) (e : Error) :
  m h = inl e -> bind m k h = inl e.
Proof. unfold bind. by intros ->. Qed.

Lemma store_read_slice_ok (h : Host) (p : path) (v : bytes) (n : nat) :
  store h !! p = Some v -> (n <= length v)%nat -> (n <= MAX_FILE_CHUNK_SIZE)%nat ->
  store_read_slice p n n h = inr (take n v, h).
Proof.
  intros Hv Hn Hc. unfold store_read_slice, runtime_store_read_slice, store_read, bind.
  rewrite Hv. assert ((0 <=? length v)%nat = true) as -> by (apply Nat.leb_le; lia).
  rewrite drop_0. rewrite Nat.min_l by done.
  rewrite length_take_le by done. rewrite Nat.eqb_refl.
  unfold ret. do 3 f_equal. rewrite drop_replicate, Nat.sub_diag. simpl.
  by rewrite app_nil_r.
Qed.

Lemma store_read_slice_short (h : Host) (p : path) (v : bytes) (n : nat) :
  store h !! p = Some v -> (length v < n)%nat -> (n <= MAX_FILE_CHUNK_SIZE)%nat ->
  store_read_slice p n n h = inl (ErrStorage (InvalidLoadValue n (length v))).
Proof.
  intros Hv Hn Hc. unfold store_read_slice, runtime_store_read_slice, store_read, bind.
  rewrite Hv. assert ((0 <=? length v)%nat = true) as -> by (apply Nat.leb_le; lia).
  rewrite drop_0. rewrite Nat.min_l by done.
  rewrite take_ge by lia.
  assert ((length v =? n)%nat = false) as -> by (apply Nat.eqb_neq; lia).
  done.
Qed.

Lemma store_read_slice_absent (h : Host) (p : path) (n : nat) :
  store h !! p = None -> store_read_slice p n n h = inl (ErrRuntime PathNotFound).
Proof.
  intros Hv. unfold store_read_slice, runtime_store_read_slice, store_read, bind.
  by rewrite Hv.
Qed.

Lemma num_chunks_by_path_ok (h : Host) (cp : path) (v : bytes) :
  store h !! (cp ++ ["num_chunks"]) = Some v -> (2 <= length v)%nat ->
  chunked_transaction_num_chunks_by_path cp h = inr (from_le (take 2 v), h).
Proof.
  intros Hv Hl. unfold chunked_transaction_num_chunks_by_path.
  change (lift (chunked_transaction_num_chunks_path cp)) with (@ret path (cp ++ ["num_chunks"])).
  unfold bind at 1, ret at 1.
  erewrite bind_inr by (apply store_read_slice_ok; [exact Hv | lia | unfold MAX_FILE_CHUNK_SIZE; lia]).
  done.
Qed.

Lemma is_transaction_complete_eq (h : Host) (cp : path) (n : N) :
  is_transaction_complete cp n h =
  inr (n <=? N.of_nat (size (children (store h) cp)) mod 65536, h).
Proof. reflexivity. Qed.

Lemma store_transaction_chunk_eq (tx_hash : bytes) (cp : path) (i : N) (data : bytes) (h : Host) :
  chunked_transaction_path tx_hash = inr cp ->
  store_transaction_chunk tx_hash i data h =
  bind (chunked_transaction_num_chunks_by_path cp) (fun num_chunks =>
  bind (is_transaction_complete cp num_chunks) (fun complete =>
  if complete then
    let* full := get_full_transaction cp num_chunks data in
    let* _ := store_delete cp in
    ret (Some full)
  else
    let* tcp := lift (transaction_chunk_path cp i) in
    let* _ := store_transaction_chunk_data tcp data in
    ret None)) h.
Proof. intros Hcp. unfold store_transaction_chunk. by rewrite Hcp. Qed.

Lemma store_value_size_ok (h : Host) (p : path) (v : bytes) :
  store h !! p = Some v -> store_value_size p h = inr (length v, h).
Proof. unfold store_value_size. by intros ->. Qed.

Lemma store_read_ok (h : Host) (p : path) (v : bytes) (off m : nat) :
  store h !! p = Some v -> (off <= length v)%nat ->
  store_read p off m h = inr (take (Nat.min m MAX_FILE_CHUNK_SIZE) (drop off v), h).
Proof.
  unfold store_read. intros -> Hoff.
  by assert ((off <=? length v)%nat = true) as -> by (apply Nat.leb_le; lia).
Qed.

Lemma read_transaction_chunk_data_ok (h : Host) (tcp : path) (v : bytes) :
  store h !! tcp = Some v -> (length v <= 2 * MAX_FILE_CHUNK_SIZE)%nat ->
  read_transaction_chunk_data tcp h = inr (v, h).
Proof.
  intros Hv Hl. unfold read_transaction_chunk_data.
  erewrite bind_inr by (by apply store_value_size_ok).
  destruct (MAX_FILE_CHUNK_SIZE <? length v)%nat eqn:E.
  - apply Nat.ltb_lt in E.
    erewrite bind_inr by (apply store_read_ok; [exact Hv | lia]).
    erewrite bind_inr by (apply store_read_ok; [exact Hv | lia]).
    rewrite drop_0, Nat.min_id. unfold ret.
    rewrite take_take_drop, take_ge by lia. done.
  - apply Nat.ltb_ge in E. rewrite (store_read_ok _ _ v) by (done || lia).
    rewrite drop_0, Nat.min_id. by rewrite take_ge by lia.
Qed.

(** The reassembly loop only reads: it appends, index by index, the stored
    bytes of the index or, where nothing is stored, the missing data. *)
Lemma get_full_transaction_loop_ok (h : Host) (cp : path) (is : list N)
    (missing_data buffer : bytes) (f : N -> bytes) :
  (forall i, i ∈ is ->
     (has_of (store h) (cp ++ [pretty i]) = None /\ f i = missing_data) \/
     (store h !! (cp ++ [pretty i]) = Some (f i) /\
      (length (f i) <= 2 * MAX_FILE_CHUNK_SIZE)%nat)) ->
  get_full_transaction_loop cp is missing_data buffer h =
  inr (buffer ++ mjoin (f <$> is), h).
Proof.
  revert buffer. induction is as [|i is IH]; intros buffer Hall; simpl.
  - by rewrite app_nil_r.
  - rewrite transaction_chunk_path_eq. unfold lift, ret at 1, bind at 1.
    unfold store_has, bind at 1.
    assert (Hrest : forall k, k ∈ is ->
      (has_of (store h) (cp ++ [pretty k]) = None /\ f k = missing_data) \/
      (store h !! (cp ++ [pretty k]) = Some (f k) /\
       (length (f k) <= 2 * MAX_FILE_CHUNK_SIZE)%nat))
      by (intros k Hk; apply Hall, list_elem_of_further, Hk).
    destruct (Hall i (list_elem_of_here i is)) as [[Hn Hf] | [Hv Hl]].
    + rewrite Hn. unfold bind at 1, ret at 1. rewrite (IH _ Hrest).
      by rewrite Hf, app_assoc.
    + pose proof (read_transaction_chunk_data_ok h _ _ Hv Hl) as Hr.
      destruct (has_of_value _ _ _ Hv) as [-> | ->]; cbv beta iota;
        (rewrite (bind_inr _ _ h h (buffer ++ f i));
         [rewrite (IH _ Hrest); by rewrite app_assoc
         | rewrite (bind_inr _ _ h h (f i) Hr); reflexivity]).
Qed.

(** ** Indices and child counts *)

Lemma elem_of_indices (n i : N) : i ∈ indices n <-> i < n.
Proof.
  unfold indices. rewrite list_elem_of_fmap. setoid_rewrite elem_of_seq. split.
  - intros (k & -> & _ & Hk). lia.
  - intros Hi. exists (N.to_nat i). split; lia.
Qed.

Lemma length_indices (n : N) : length (indices n) = N.to_nat n.
Proof. unfold indices. by rewrite length_fmap, length_seq. Qed.

Lemma NoDup_indices (n : N) : NoDup (indices n).
Proof. unfold indices. apply NoDup_fmap_2; [apply _ |]. apply NoDup_seq. Qed.

Lemma children_all_but_one (s : gmap path bytes) (cp : path) (n j : N) (frag : N -> bytes) :
  holds_all_but_one s cp n j frag -> j < n ->
  size (children s cp) = N.to_nat n.
Proof.
  intros Hs Hj.
  assert (children s cp =
          {["num_chunks"]} ∪ (list_to_set (pretty <$> indices n) ∖ {[pretty j]})) as ->.
  { apply set_eq. intros c.
    rewrite elem_of_children, elem_of_union, elem_of_singleton, elem_of_difference,
      elem_of_list_to_set, list_elem_of_fmap, elem_of_singleton.
    split.
    - intros (r & v & Hv). apply Hs in Hv as [[Hr _] | (k & Hk & Hkj & Hr & _)].
      + injection Hr as -> _. by left.
      + injection Hr as -> _. right. split.
        * exists k. split; [done | by apply elem_of_indices].
        * intros E. by apply (inj pretty) in E.
    - intros [-> | [(k & -> & Hk) Hne]].
      + exists [], (to_le 2 n). apply Hs. by left.
      + exists [], (frag k). apply Hs. right. exists k.
        apply elem_of_indices in Hk. repeat split; auto. by intros ->. }
  rewrite size_union.
  2:{ apply disjoint_singleton_l.
      rewrite elem_of_difference, elem_of_list_to_set, list_elem_of_fmap.
      intros [(k & E & _) _]. by apply (pretty_ne_num_chunks k). }
  rewrite size_singleton, size_difference.
  2:{ apply singleton_subseteq_l, elem_of_list_to_set, list_elem_of_fmap.
      exists j. split; [done | by apply elem_of_indices]. }
  rewrite size_singleton, size_list_to_set.
  2:{ apply NoDup_fmap_2; [apply _ |]. apply NoDup_indices. }
  rewrite length_fmap, length_indices. lia.
Qed.

Lemma children_holds_fragments (s : gmap path bytes) (cp : path) (n : N) (K : list N)
    (frag : N -> bytes) :
  NoDup K -> holds_fragments s cp n K frag ->
  size (children s cp) = S (length K).
Proof.
  intros HK Hs.
  assert (children s cp = {["num_chunks"]} ∪ list_to_set (pretty <$> K)) as ->.
  { apply set_eq. intros c.
    rewrite elem_of_children, elem_of_union, elem_of_singleton,
      elem_of_list_to_set, list_elem_of_fmap.
    split.
    - intros (r & v & Hv). apply Hs in Hv as [[Hr _] | (k & Hk & Hr & _)].
      + injection Hr as -> _. by left.
      + injection Hr as -> _. right. by exists k.
    - intros [-> | (k & -> & Hk)].
      + exists [], (to_le 2 n). apply Hs. by left.
      + exists [], (frag k). apply Hs. right. by exists k. }
  rewrite size_union.
  2:{ apply disjoint_singleton_l.
      rewrite elem_of_list_to_set, list_elem_of_fmap.
      intros (k & E & _). by apply (pretty_ne_num_chunks k). }
  rewrite size_singleton, size_list_to_set.
  2:{ apply NoDup_fmap_2; [apply _ | done]. }
  by rewrite length_fmap.
Qed.

Lemma lookup_insert_app (m : gmap path bytes) (cp a r : path) (x : bytes) :
  <[cp ++ a := x]> m !! (cp ++ r) = if decide (r = a) then Some x else m !! (cp ++ r).
Proof.
  rewrite lookup_insert. case_decide as E; case_decide as E'.
  - done.
  - apply app_inv_head in E. congruence.
  - subst. congruence.
  - done.
Qed.

Lemma fragments_store_holds (cp : path) (n : N) (K : list N) (frag : N -> bytes) :
  NoDup K -> holds_fragments (fragments_store cp n K frag) cp n K frag.
Proof.
  intros HK r v. unfold fragments_store. rewrite lookup_insert_app.
  assert (NoDup ((fun k => (cp ++ [pretty k], frag k)) <$> K).*1) as Hnd.
  { rewrite <- list_fmap_compose. apply NoDup_fmap_2; [|done].
    intros k1 k2 E. simpl in E. apply app_inv_head in E. injection E as E.
    by apply (inj pretty) in E. }
  case_decide as Er.
  - subst r. split.
    + intros [= <-]. by left.
    + intros [[_ ->] | (k & _ & E & _)]; [done|].
      injection E as E. symmetry in E. by apply pretty_ne_num_chunks in E.
  - rewrite <- elem_of_list_to_map by done. rewrite list_elem_of_fmap. split.
    + intros (k & E & Hk). injection E as E ->. apply app_inv_head in E.
      right. by exists k.
    + intros [[? _] | (k & Hk & -> & ->)]; [done|]. by exists k.
Qed.

Lemma from_le_to_le_2 (n : N) : n < 65536 -> from_le (to_le 2 n) = n.
Proof. intros Hn. rewrite from_le_to_le. apply N.mod_small. simpl. lia. Qed.

Lemma holds_fragments_all_but_one (s : gmap path bytes) (cp : path) (n j : N)
    (K : list N) (frag : N -> bytes) :
  (forall k, k ∈ K <-> k < n /\ k <> j) ->
  holds_fragments s cp n K frag -> holds_all_but_one s cp n j frag.
Proof.
  intros HK Hs r v. unfold holds_fragments in Hs. rewrite (Hs r v). split.
  - intros [Hm | (k & Hk & Hr & Hv)]; [by left |].
    right. apply HK in Hk as [Hk1 Hk2]. by exists k.
  - intros [Hm | (k & Hk1 & Hk2 & Hr & Hv)]; [by left |].
    right. exists k. split; [by apply HK | done].
Qed.

(** ** Writes of fragments *)

Lemma store_write_inv (p : path) (data : bytes) (off : nat) (h h1 : Host) (u : unit) :
  store_write p data off h = inr (u, h1) ->
  (length data <= MAX_FILE_CHUNK_SIZE)%nat /\
  h1 = mkHost (<[p := write_range (default [] (store h !! p)) off data]> (store h))
              (writes h ++ [(p, off, data)]).
Proof.
  unfold store_write.
  destruct (MAX_FILE_CHUNK_SIZE <? length data)%nat eqn:E1; [discriminate |].
  destruct (off <=? _)%nat; [| discriminate].
  intros H. injection H as <- <-. split; [apply Nat.ltb_ge in E1; lia | reflexivity].
Qed.

Lemma store_transaction_chunk_data_inv (tcp : path) (data : bytes) (h h1 : Host) (u : unit) :
  store_transaction_chunk_data tcp data h = inr (u, h1) ->
  is_Some (store h1 !! tcp) /\ (forall k, k <> tcp -> store h1 !! k = store h !! k).
Proof.
  unfold store_transaction_chunk_data, store_has, bind at 1.
  assert (forall h2 h3 : Host,
            store_write tcp (take MAX_FILE_CHUNK_SIZE data) 0 h2 = inr (tt, h3) ->
            (let* _ := store_write tcp (take MAX_FILE_CHUNK_SIZE data) 0 in
             store_write tcp (drop MAX_FILE_CHUNK_SIZE data) MAX_FILE_CHUNK_SIZE) h2 =
            store_write tcp (drop MAX_FILE_CHUNK_SIZE data) MAX_FILE_CHUNK_SIZE h3) as Hseq.
  { intros h2 h3 E. unfold bind. by rewrite E. }
  destruct (has_of (store h) tcp) as [[] |] eqn:Ehas.
  - unfold ret. intros H. injection H as <- <-. split; [| done].
    unfold has_of in Ehas. destruct (store h !! tcp); [done |].
    destruct (has_subtree (store h) tcp); discriminate.
  - destruct (MAX_FILE_CHUNK_SIZE <? length data)%nat.
    + destruct (store_write tcp (take MAX_FILE_CHUNK_SIZE data) 0 h) as [e | [[] h2]] eqn:E1.
      * unfold bind. by rewrite E1.
      * rewrite (Hseq h h2) by done. intros E2.
        apply store_write_inv in E1 as [_ ->]. apply store_write_inv in E2 as [_ ->].
        simpl. rewrite lookup_insert_eq. split; [by eexists |].
        intros k Hk. by rewrite !lookup_insert_ne by congruence.
    + intros E. apply store_write_inv in E as [_ ->]. simpl.
      rewrite lookup_insert_eq. split; [by eexists |].
      intros k Hk. by rewrite lookup_insert_ne by congruence.
  - unfold ret. intros H. injection H as <- <-. split; [| done].
    unfold has_of in Ehas. destruct (store h !! tcp); [done |].
    destruct (has_subtree (store h) tcp); discriminate.
  - destruct (MAX_FILE_CHUNK_SIZE <? length data)%nat.
    + destruct (store_write tcp (take MAX_FILE_CHUNK_SIZE data) 0 h) as [e | [[] h2]] eqn:E1.
      * unfold bind. by rewrite E1.
      * rewrite (Hseq h h2) by done. intros E2.
        apply store_write_inv in E1 as [_ ->]. apply store_write_inv in E2 as [_ ->].
        simpl. rewrite lookup_insert_eq. split; [by eexists |].
        intros k Hk. by rewrite !lookup_insert_ne by congruence.
    + intros E. apply store_write_inv in E as [_ ->]. simpl.
      rewrite lookup_insert_eq. split; [by eexists |].
      intros k Hk. by rewrite lookup_insert_ne by congruence.
Qed.

Lemma chunk_path_ne_num_chunks (cp : path) (i : N) :
  cp ++ ["num_chunks"] <> cp ++ [pretty i].
Proof.
  intros E. apply app_inv_head in E. injection E as E.
  by apply (pretty_ne_num_chunks i).
Qed.

Lemma children_frame (s s1 : gmap path bytes) (cp : path) (c : string) :
  (forall k, k <> cp ++ [c] -> s1 !! k = s !! k) ->
  children s1 cp ⊆ children s cp ∪ {[c]}.
Proof.
  intros Hframe c' Hc'. apply elem_of_children in Hc' as (r & v & Hv).
  destruct (decide (cp ++ c' :: r = cp ++ [c])) as [E | Hne].
  - apply app_inv_head in E. injection E as -> _. set_solver.
  - rewrite Hframe in Hv by done. apply elem_of_union_l.
    apply elem_of_children. eauto.
Qed.

(** A submission to an incomplete chunked transaction only stores the
    fragment. *)
Lemma store_transaction_chunk_incomplete (tx_hash : TransactionHash) (cp : path)
    (i n : N) (p : bytes) (h h1 : Host) (r : option bytes) :
  chunked_transaction_path tx_hash = inr cp ->
  store h !! (cp ++ ["num_chunks"]) = Some (to_le 2 n) -> n < 65536 ->
  N.of_nat (size (children (store h) cp)) mod 65536 < n ->
  store_transaction_chunk tx_hash i p h = inr (r, h1) ->
  r = None /\ store_transaction_chunk_data (cp ++ [pretty i]) p h = inr (tt, h1).
Proof.
  intros Hcp Hmeta Hn Hinc H1.
  rewrite (store_transaction_chunk_eq _ cp) in H1 by done.
  erewrite bind_inr in H1.
  2:{ apply num_chunks_by_path_ok; [exact Hmeta | rewrite length_to_le; lia]. }
  rewrite take_ge, from_le_to_le_2 in H1 by (rewrite ?length_to_le; lia).
  erewrite bind_inr in H1 by apply is_transaction_complete_eq.
  apply N.leb_gt in Hinc. rewrite Hinc in H1.
  rewrite transaction_chunk_path_eq in H1. unfold lift in H1.
  rewrite (bind_inr _ _ h h (cp ++ [pretty i])) in H1 by reflexivity.
  unfold bind at 1 in H1.
  destruct (store_transaction_chunk_data (cp ++ [pretty i]) p h) as [e | [[] h2]];
    [discriminate |].
  unfold ret in H1. injection H1 as <- <-. done.
Qed.

(** A submission of a fragment whose path holds a value, to an incomplete
    chunked transaction, does nothing. *)
Lemma store_transaction_chunk_again (tx_hash : TransactionHash) (cp : path)
    (i n : N) (q : bytes) (h : Host) :
  chunked_transaction_path tx_hash = inr cp ->
  store h !! (cp ++ ["num_chunks"]) = Some (to_le 2 n) -> n < 65536 ->
  N.of_nat (size (children (store h) cp)) mod 65536 < n ->
  is_Some (store h !! (cp ++ [pretty i])) ->
  store_transaction_chunk tx_hash i q h = inr (None, h).
Proof.
  intros Hcp Hmeta Hn Hinc [v Hv].
  rewrite (store_transaction_chunk_eq _ cp) by done.
  erewrite bind_inr.
  2:{ apply num_chunks_by_path_ok; [exact Hmeta | rewrite length_to_le; lia]. }
  rewrite take_ge, from_le_to_le_2 by (rewrite ?length_to_le; lia).
  erewrite bind_inr by apply is_transaction_complete_eq.
  apply N.leb_gt in Hinc. rewrite Hinc.
  rewrite transaction_chunk_path_eq. unfold lift.
  rewrite (bind_inr _ _ h h (cp ++ [pretty i])) by reflexivity.
  rewrite (bind_inr _ _ h h tt); [reflexivity |].
  unfold store_transaction_chunk_data, store_has.
  rewrite (bind_inr _ _ h h (has_of (store h) (cp ++ [pretty i]))) by reflexivity.
  destruct (has_of_value _ _ _ Hv) as [-> | ->]; reflexivity.
Qed.

Lemma store_write_ok (p : path) (data : bytes) (off : nat) (h : Host) :
  (length data <= MAX_FILE_CHUNK_SIZE)%nat ->
  (off <= length (default [] (store h !! p)))%nat ->
  store_write p data off h =
  inr (tt, mkHost (<[p := write_range (default [] (store h !! p)) off data]> (store h))
                  (writes h ++ [(p, off, data)])).
Proof.
  intros Hl Ho. unfold store_write.
  destruct (MAX_FILE_CHUNK_SIZE <? length data)%nat eqn:E1;
    [apply Nat.ltb_lt in E1; lia |].
  destruct (off <=? _)%nat eqn:E2; [reflexivity | apply Nat.leb_gt in E2; lia].
Qed.

Lemma write_range_nil (data : bytes) : write_range [] 0 data = data.
Proof. unfold write_range. by rewrite drop_nil, app_nil_r. Qed.

Lemma write_range_end (v data : bytes) (off : nat) :
  length v = off -> write_range v off data = v ++ data.
Proof.
  intros Hl. unfold write_range. subst off.
  rewrite take_ge, drop_ge, app_nil_r by lia. reflexivity.
Qed.

(** ** Blocks *)

Lemma bind_ret {A B} (a : A) (k : A -> M B) (h : Host) : bind (ret a) k h = k a h.
Proof. reflexivity. Qed.

Lemma bind_inr_inv {A B} (m : M A) (k : A -> M B) (h h2 : Host) (b : B) :
  bind m k h = inr (b, h2) -> exists a h1, m h = inr (a, h1) /\ k a h1 = inr (b, h2).
Proof. unfold bind. destruct (m h) as [e | [a h1]]; [discriminate | eauto]. Qed.

Lemma write_range_0 (v data : bytes) :
  (length v <= length data)%nat -> write_range v 0 data = data.
Proof.
  intros Hl. unfold write_range. simpl. rewrite drop_ge, app_nil_r by lia. reflexivity.
Qed.

Ltac block_paths_ne :=
  unfold EVM_CURRENT_BLOCK, EVM_BLOCKS, BLOCKS_NUMBER, BLOCKS_HASH, BLOCKS_TRANSACTIONS;
  cbn [app]; let E := fresh "E" in intros E;
  first [ discriminate E
        | injection E as E; by apply (pretty_ne_current _ (eq_sym E))
        | injection E as E; by apply (pretty_ne_current _ E) ].

Lemma store_current_block_eq (block : L2Block) (h : Host) :
  (length (hash block) <= MAX_FILE_CHUNK_SIZE)%nat ->
  (length (List.concat (transactions block)) <= MAX_FILE_CHUNK_SIZE)%nat ->
  store_current_block block h = inr (tt, current_block_host block h).
Proof.
  intros Hh Ht.
  unfold store_current_block, store_current_block_nodebug, store_block_by_number,
    store_block, store_block_number, store_block_hash, store_block_transactions.
  rewrite block_path_eq. unfold lift, concat. cbv beta iota zeta.
  erewrite (bind_inr _ _ h _ tt) by (rewrite bind_ret; apply store_write_ok;
    [rewrite length_to_le; unfold MAX_FILE_CHUNK_SIZE | ]; lia).
  rewrite bind_ret.
  erewrite (bind_inr _ _ _ _ tt) by (rewrite bind_ret; apply store_write_ok;
    [rewrite length_to_le; unfold MAX_FILE_CHUNK_SIZE | ]; lia).
  erewrite (bind_inr _ _ _ _ tt) by (rewrite bind_ret; apply store_write_ok; lia).
  rewrite bind_ret, store_write_ok by lia.
  unfold current_block_host. cbn [store writes]. by rewrite <- !app_assoc.
Qed.

Lemma store_current_block_inv (block : L2Block) (h h' : Host) (u : unit) :
  store_current_block block h = inr (u, h') ->
  (length (hash block) <= MAX_FILE_CHUNK_SIZE)%nat /\
  (length (List.concat (transactions block)) <= MAX_FILE_CHUNK_SIZE)%nat.
Proof.
  unfold store_current_block, store_current_block_nodebug, store_block_by_number,
    store_block, store_block_number, store_block_hash, store_block_transactions.
  rewrite block_path_eq. unfold lift, concat. cbv beta iota zeta.
  intros (u1 & h1 & _ & E1)%bind_inr_inv.
  rewrite bind_ret in E1.
  apply bind_inr_inv in E1 as (u2 & h2 & _ & E3).
  apply bind_inr_inv in E3 as (u3 & h3 & E4 & E5).
  rewrite bind_ret in E4, E5.
  apply store_write_inv in E4 as [Hh _]. apply store_write_inv in E5 as [Ht _].
  done.
Qed.

Lemma current_block_host_lookup (block : L2Block) (h : Host) :
  let n := number block in
  let bp := EVM_BLOCKS ++ [pretty n] in
  let s := store h in
  overwritten_by s (EVM_CURRENT_BLOCK ++ BLOCKS_NUMBER) (to_le 32 n) ->
  overwritten_by s (bp ++ BLOCKS_NUMBER) (to_le 32 n) ->
  overwritten_by s (bp ++ BLOCKS_HASH) (hash block) ->
  overwritten_by s (bp ++ BLOCKS_TRANSACTIONS) (List.concat (transactions block)) ->
  let s' := store (current_block_host block h) in
  s' !! (EVM_CURRENT_BLOCK ++ BLOCKS_NUMBER) = Some (to_le 32 n) /\
  s' !! (bp ++ BLOCKS_NUMBER) = Some (to_le 32 n) /\
  s' !! (bp ++ BLOCKS_HASH) = Some (hash block) /\
  s' !! (bp ++ BLOCKS_TRANSACTIONS) = Some (List.concat (transactions block)).
Proof.
  intros n bp s H1 H2 H3 H4 s'. unfold s', current_block_host. cbn [store].
  fold n bp s. unfold overwritten_by in *.
  assert (EVM_CURRENT_BLOCK ++ BLOCKS_NUMBER <> bp ++ BLOCKS_NUMBER) by block_paths_ne.
  assert (EVM_CURRENT_BLOCK ++ BLOCKS_NUMBER <> bp ++ BLOCKS_HASH) by block_paths_ne.
  assert (EVM_CURRENT_BLOCK ++ BLOCKS_NUMBER <> bp ++ BLOCKS_TRANSACTIONS) by block_paths_ne.
  assert (bp ++ BLOCKS_NUMBER <> bp ++ BLOCKS_HASH) by block_paths_ne.
  assert (bp ++ BLOCKS_NUMBER <> bp ++ BLOCKS_TRANSACTIONS) by block_paths_ne.
  assert (bp ++ BLOCKS_HASH <> bp ++ BLOCKS_TRANSACTIONS) by block_paths_ne.
  simplify_map_eq. rewrite !write_range_0 by done.
  repeat split.
Qed.

Lemma length_concat_hashes (txs : list TransactionHash) :
  Forall (fun t => length t = TRANSACTION_HASH_SIZE) txs ->
  length (List.concat txs) = (TRANSACTION_HASH_SIZE * length txs)%nat.
Proof.
  induction 1 as [| t txs Ht _ IH]; [reflexivity |].
  cbn [List.concat length]. rewrite length_app, IH, Ht. lia.
Qed.

Lemma chunks_go_concat (txs : list TransactionHash) (fuel : nat) :
  Forall (fun t => length t = TRANSACTION_HASH_SIZE) txs ->
  (length (List.concat txs) <= fuel)%nat ->
  chunks_go fuel TRANSACTION_HASH_SIZE (List.concat txs) = txs.
Proof.
  intros Hall. revert fuel.
  induction Hall as [| t txs Ht _ IH]; intros fuel Hfuel; [by destruct fuel |].
  cbn [List.concat] in *. rewrite length_app, Ht in Hfuel.
  destruct fuel as [| fuel]; [unfold TRANSACTION_HASH_SIZE in Hfuel; lia |].
  destruct t as [| b t']; [discriminate Ht |].
  cbn [chunks_go app].
  rewrite app_comm_cons, take_app_length', drop_app_length' by done.
  rewrite IH; [reflexivity | unfold TRANSACTION_HASH_SIZE in Hfuel; lia].
Qed.

Lemma omap_try_into_hash (txs : list TransactionHash) :
  Forall (fun t => length t = TRANSACTION_HASH_SIZE) txs ->
  omap try_into_hash txs = txs.
Proof.
  induction 1 as [| t txs Ht _ IH]; [reflexivity |].
  change (omap try_into_hash (t :: txs)) with
    (match try_into_hash t with
     | Some y => y :: omap try_into_hash txs
     | None => omap try_into_hash txs
     end).
  unfold try_into_hash at 1. rewrite Ht, Nat.eqb_refl. by rewrite IH.
Qed.

Lemma store_read_empty_safe_ok (h : Host) (p : path) (v : bytes) (m : nat) :
  store h !! p = Some v -> (length v <= Nat.min m MAX_FILE_CHUNK_SIZE)%nat ->
  store_read_empty_safe p 0 m h = inr (v, h).
Proof.
  intros Hv Hl. unfold store_read_empty_safe.
  erewrite bind_inr by (by apply store_value_size_ok).
  destruct (length v =? 0)%nat eqn:E.
  - apply Nat.eqb_eq, nil_length_inv in E as ->. reflexivity.
  - rewrite (store_read_ok _ _ v) by (done || lia). rewrite drop_0, take_ge by lia.
    reflexivity.
Qed.

Lemma read_current_block_number_ok (h : Host) (n : N) :
  store h !! (EVM_CURRENT_BLOCK ++ BLOCKS_NUMBER) = Some (to_le 32 n) ->
  read_current_block_number h = inr (n mod 2 ^ 64, h).
Proof.
  intros Hv. unfold read_current_block_number, lift, concat. cbv beta iota.
  rewrite bind_ret.
  erewrite bind_inr.
  2:{ apply store_read_slice_ok; [exact Hv | rewrite length_to_le; lia
                                 | unfold MAX_FILE_CHUNK_SIZE; lia]. }
  rewrite take_to_le, from_le_to_le by lia. reflexivity.
Qed.

Lemma read_nth_block_transactions_ok (h : Host) (bp : path) (txs : list TransactionHash) :
  store h !! (bp ++ BLOCKS_TRANSACTIONS) = Some (List.concat txs) ->
  Forall (fun t => length t = TRANSACTION_HASH_SIZE) txs ->
  (length (List.concat txs) <= MAX_FILE_CHUNK_SIZE)%nat ->
  read_nth_block_transactions bp h = inr (txs, h).
Proof.
  intros Hv Hall Hl. unfold read_nth_block_transactions, lift, concat. cbv beta iota.
  rewrite bind_ret.
  erewrite bind_inr.
  2:{ apply store_read_empty_safe_ok; [exact Hv |].
      unfold MAX_TRANSACTION_HASHES, TRANSACTION_HASH_SIZE, MAX_FILE_CHUNK_SIZE in *. lia. }
  unfold ret, chunks. rewrite chunks_go_concat, omap_try_into_hash by done.
  reflexivity.
Qed.

(** ** Transaction lists *)


(** ** Hash-derived paths *)

Lemma hash_path_inj (pre : path) (tx1 tx2 : bytes) :
  match path_of_raw ("/" +:+ hex_encode tx1) with
  | inl e => inl (ErrPath e)
  | inr p => concat pre p
  end =
  match path_of_raw ("/" +:+ hex_encode tx2) with
  | inl e => inl (ErrPath e)
  | inr p => concat pre p
  end -> tx1 = tx2.
Proof.
  destruct (decide (tx1 = [])) as [-> | H1], (decide (tx2 = [])) as [-> | H2]; [done | | |].
  - rewrite (path_of_raw_segment (hex_encode tx2)) by (by apply hex_valid).
    discriminate.
  - rewrite (path_of_raw_segment (hex_encode tx1)) by (by apply hex_valid).
    discriminate.
  - rewrite !path_of_raw_segment by (by apply hex_valid). unfold concat.
    intros E. injection E as E. apply app_inv_head in E. injection E as E.
    by apply hex_encode_inj.
Qed.

Lemma hash_path_fail (pre : path) (tx : bytes) (e : Error) :
  match path_of_raw ("/" +:+ hex_encode tx) with
  | inl e => inl (ErrPath e)
  | inr p => concat pre p
  end = inl e -> tx = [] /\ e = ErrPath InvalidPath.
Proof.
  destruct (path_of_raw ("/" +:+ hex_encode tx)) as [e' | p] eqn:E; [| discriminate].
  apply hash_path_error in E as [-> ->]. intros H. injection H as <-. done.
Qed.

(** * Claims *)

(** ** C1 *)

(** C1: for a chunked transaction with [n] expected fragments whose subtree
    holds the metadata and the stored fragments of every index in [0, n)
    but one index [j] (each fragment as [store_transaction_chunk_data]
    writes it, at most two store values long), a call of
    [store_transaction_chunk] with payload [p] returns the concatenation of
    the fragments of indices [0 .. n-1], with [p] at index [j], and leaves
    no per-hash subtree behind. *)
Theorem store_transaction_chunk_reassembles (tx_hash : TransactionHash) (cp : path)
    (i : N) (p : bytes) (h : Host) (n j : N) (frag : N -> bytes) :
  chunked_transaction_path tx_hash = inr cp ->
  n < 65536 -> j < n ->
  holds_all_but_one (store h) cp n j frag ->
  (forall k, k < n -> (length (frag k) <= 2 * MAX_FILE_CHUNK_SIZE)%nat) ->
  exists h',
    store_transaction_chunk tx_hash i p h =
      inr (Some (mjoin ((fun k => if decide (k = j) then p else frag k) <$> indices n)), h') /\
    has_of (store h') cp = None.
Proof.
  intros Hcp Hn Hj Hs Hfrag.
  rewrite (store_transaction_chunk_eq _ cp) by done.
  erewrite bind_inr.
  2:{ apply num_chunks_by_path_ok.
      - apply Hs. left. split; reflexivity.
      - rewrite length_to_le. lia. }
  rewrite take_ge by (rewrite length_to_le; lia).
  rewrite from_le_to_le_2 by done.
  erewrite bind_inr by apply is_transaction_complete_eq.
  rewrite (children_all_but_one _ _ n j frag) by done.
  rewrite N2Nat.id, N.mod_small by done.
  rewrite N.leb_refl.
  unfold get_full_transaction.
  erewrite bind_inr.
  2:{ apply (get_full_transaction_loop_ok _ _ _ _ _
               (fun k => if decide (k = j) then p else frag k)).
      intros k Hk%elem_of_indices. case_decide as Hkj.
      - left. split; [|done]. subst k. apply has_of_None. split.
        + destruct (store h !! (cp ++ [pretty j])) as [v|] eqn:E; [|done].
          apply Hs in E as [[E _] | (k & _ & Hkj & E & _)].
          * injection E as E. by apply pretty_ne_num_chunks in E.
          * injection E as E. by apply (inj pretty) in E.
        + intros r v Hr E. rewrite <- app_assoc in E.
          apply Hs in E as [[E _] | (k & _ & _ & E & _)];
            destruct r; simpl in E; (done || congruence).
      - right. split.
        + apply Hs. right. by exists k.
        + by apply Hfrag. }
  cbv beta.
  erewrite bind_inr.
  2:{ apply (store_delete_ok _ _ ["num_chunks"] (to_le 2 n)). apply Hs. left. done. }
  eexists. split; [reflexivity |]. apply has_of_delete_under.
Qed.

(** A chunked transaction of three expected fragments whose fragments 0 and
    1 are stored, fragment 2 arriving. *)
Lemma store_transaction_chunk_reassembles_witness :
  let tx := replicate 32 Byte.x11 in
  let cp := CHUNKED_TRANSACTIONS ++ [hex_encode tx] in
  let frag := fun k : N => if decide (k = 0) then [Byte.x61; Byte.x61] else [Byte.x62; Byte.x62] in
  let h := mkHost (fragments_store cp 3 [0; 1] frag) [] in
  exists h',
    store_transaction_chunk tx 7 [Byte.x63] h =
      inr (Some (mjoin ((fun k => if decide (k = 2) then [Byte.x63] else frag k) <$> indices 3)), h') /\
    has_of (store h') cp = None.
Proof.
  intros tx cp frag h.
  apply (store_transaction_chunk_reassembles tx cp 7 [Byte.x63] h 3 2 frag).
  - vm_compute. reflexivity.
  - lia.
  - lia.
  - apply (holds_fragments_all_but_one _ _ _ _ [0; 1]).
    + intros k. set_unfold. split; intros; lia.
    + apply fragments_store_holds. vm_compute. repeat constructor; set_solver.
  - intros k _. subst frag. simpl. case_decide; simpl; unfold MAX_FILE_CHUNK_SIZE; lia.
Defined.

(** ** C10 *)

(** C10: on a call of [store_transaction_chunk] whose completeness test
    passes, the fragment index [i] of the call plays no part: the result is,
    for every index in [0, n) in order, the bytes stored for it or, where
    nothing is stored, the payload [p] of the call, so [p] lands at every
    absent index, whatever is stored under the path of [i]. *)
Theorem store_transaction_chunk_complete_ignores_index (tx_hash : TransactionHash)
    (cp : path) (i : N) (p : bytes) (h : Host) (n : N) :
  chunked_transaction_path tx_hash = inr cp ->
  store h !! (cp ++ ["num_chunks"]) = Some (to_le 2 n) -> n < 65536 ->
  n <= N.of_nat (size (children (store h) cp)) mod 65536 ->
  (forall k, k < n ->
     has_of (store h) (cp ++ [pretty k]) = None \/
     exists v, store h !! (cp ++ [pretty k]) = Some v /\
               (length v <= 2 * MAX_FILE_CHUNK_SIZE)%nat) ->
  exists h',
    store_transaction_chunk tx_hash i p h =
      inr (Some (mjoin ((fun k => match store h !! (cp ++ [pretty k]) with
                                  | Some v => v
                                  | None => p
                                  end) <$> indices n)), h') /\
    has_of (store h') cp = None.
Proof.
  intros Hcp Hmeta Hn Hcomplete Hk.
  rewrite (store_transaction_chunk_eq _ cp) by done.
  erewrite bind_inr.
  2:{ apply num_chunks_by_path_ok; [exact Hmeta | rewrite length_to_le; lia]. }
  rewrite take_ge by (rewrite length_to_le; lia).
  rewrite from_le_to_le_2 by done.
  erewrite bind_inr by apply is_transaction_complete_eq.
  apply N.leb_le in Hcomplete. rewrite Hcomplete.
  unfold get_full_transaction.
  erewrite bind_inr.
  2:{ apply (get_full_transaction_loop_ok _ _ _ _ _
               (fun k => match store h !! (cp ++ [pretty k]) with
                         | Some v => v
                         | None => p
                         end)).
      intros k Hki%elem_of_indices.
      destruct (Hk k Hki) as [Hnone | (v & Hv & Hl)].
      - left. split; [done|]. apply has_of_None in Hnone as [-> _]. done.
      - right. rewrite Hv. by split. }
  cbv beta.
  erewrite bind_inr by (apply (store_delete_ok _ _ ["num_chunks"] _ Hmeta)).
  eexists. split; [reflexivity |]. apply has_of_delete_under.
Qed.

(** A chunked transaction of three expected fragments with fragment 0 and a
    stray value at index 5 stored: the subtree has three children, so the
    call with index 0 completes and its payload fills indices 1 and 2. *)
Lemma store_transaction_chunk_complete_ignores_index_witness :
  let tx := replicate 32 Byte.x11 in
  let cp := CHUNKED_TRANSACTIONS ++ [hex_encode tx] in
  let h := mkHost (list_to_map [(cp ++ ["num_chunks"], to_le 2 3);
                                (cp ++ ["0"], [Byte.x61; Byte.x61]);
                                (cp ++ ["5"], [Byte.x62; Byte.x62])]) [] in
  exists h',
    store_transaction_chunk tx 0 [Byte.x63] h =
      inr (Some (mjoin ((fun k => match store h !! (cp ++ [pretty k]) with
                                  | Some v => v
                                  | None => [Byte.x63]
                                  end) <$> indices 3)), h') /\
    has_of (store h') cp = None.
Proof.
  intros tx cp h.
  apply (store_transaction_chunk_complete_ignores_index tx cp 0 [Byte.x63] h 3).
  - vm_compute. reflexivity.
  - vm_compute. reflexivity.
  - lia.
  - vm_compute. discriminate.
  - intros k Hk. assert (k = 0 \/ k = 1 \/ k = 2) as [-> | [-> | ->]] by lia.
    + right. exists [Byte.x61; Byte.x61]. split; [vm_compute; reflexivity | simpl; unfold MAX_FILE_CHUNK_SIZE; lia].
    + left. vm_compute. reflexivity.
    + left. vm_compute. reflexivity.
Defined.

(** ** C3 *)

(** C3: duplicate delivery is tolerated while the subtree stays
    incomplete. For a chunked transaction of [n] expected fragments whose
    per-hash subtree has fewer than [n - 1] direct children, so that it is
    still incomplete after one more fragment, submitting fragment [i] with
    payload [p] and then again with the same or any other payload [q] has
    the outcome and the final store and write log of submitting it once;
    the second submission returns [None], and a successful first one
    returns [None] after storing a value at the path of [i]. *)
Theorem store_transaction_chunk_duplicate (tx_hash : TransactionHash) (cp : path)
    (i n : N) (p q : bytes) (h : Host) :
  chunked_transaction_path tx_hash = inr cp ->
  store h !! (cp ++ ["num_chunks"]) = Some (to_le 2 n) -> n < 65536 ->
  N.of_nat (size (children (store h) cp)) + 1 < n ->
  (let* r1 := store_transaction_chunk tx_hash i p in
   let* r2 := store_transaction_chunk tx_hash i q in
   ret (r1, r2)) h =
  (let* r1 := store_transaction_chunk tx_hash i p in
   ret (r1, None)) h /\
  (forall r h1, store_transaction_chunk tx_hash i p h = inr (r, h1) ->
     r = None /\ is_Some (store h1 !! (cp ++ [pretty i]))).
Proof.
  intros Hcp Hmeta Hn Hfew.
  assert (forall r h1, store_transaction_chunk tx_hash i p h = inr (r, h1) ->
            r = None /\ is_Some (store h1 !! (cp ++ [pretty i])) /\
            store_transaction_chunk tx_hash i q h1 = inr (None, h1)) as Hfirst.
  { intros r h1 H1.
    destruct (store_transaction_chunk_incomplete tx_hash cp i n p h h1 r)
      as [-> Hd]; [done | done | done | rewrite N.mod_small; lia | done |].
    pose proof (store_transaction_chunk_data_inv _ _ _ _ _ Hd) as [Hsome Hframe].
    split; [done | split; [done |]].
    apply (store_transaction_chunk_again tx_hash cp i n q h1); [done | | done | | done].
    - rewrite Hframe; [exact Hmeta | apply chunk_path_ne_num_chunks].
    - pose proof (children_frame (store h) (store h1) cp (pretty i) Hframe) as Hsub.
      apply subseteq_size in Hsub. rewrite size_union_alt in Hsub.
      assert (size ({[pretty i]} ∖ children (store h) cp) <= 1)%nat.
      { rewrite <- (size_singleton (C := gset string) (pretty i)). apply subseteq_size. set_solver. }
      rewrite N.mod_small; lia. }
  split.
  - unfold bind at 1 3.
    destruct (store_transaction_chunk tx_hash i p h) as [e | [r h1]] eqn:E1; [done |].
    destruct (Hfirst r h1 eq_refl) as (-> & _ & E2).
    unfold bind. rewrite E2. reflexivity.
  - intros r h1 H1. by destruct (Hfirst r h1 H1) as (? & ? & _).
Qed.

(** A chunked transaction of three expected fragments, none stored yet:
    fragment 0 is submitted with [aa], then again with [bb]. *)
Lemma store_transaction_chunk_duplicate_witness :
  let tx := replicate 32 Byte.x11 in
  let cp := CHUNKED_TRANSACTIONS ++ [hex_encode tx] in
  let h := mkHost {[cp ++ ["num_chunks"] := to_le 2 3]} [] in
  (let* r1 := store_transaction_chunk tx 0 [Byte.x61; Byte.x61] in
   let* r2 := store_transaction_chunk tx 0 [Byte.x62; Byte.x62] in
   ret (r1, r2)) h =
  (let* r1 := store_transaction_chunk tx 0 [Byte.x61; Byte.x61] in
   ret (r1, None)) h /\
  (forall r h1, store_transaction_chunk tx 0 [Byte.x61; Byte.x61] h = inr (r, h1) ->
     r = None /\ is_Some (store h1 !! (cp ++ [pretty 0]))).
Proof.
  intros tx cp h.
  apply (store_transaction_chunk_duplicate tx cp 0 3).
  - vm_compute. reflexivity.
  - vm_compute. reflexivity.
  - lia.
  - vm_compute. reflexivity.
Defined.

(** C3, counterexample: a chunked transaction of two expected fragments;
    fragment 0 ([aa]) is submitted twice. The first submission stores it;
    the second one finds two children (the metadata and fragment 0), so it
    reassembles [aaaa] and deletes the subtree, fragment 0 included; the
    genuine fragment 1 ([bb]) is then rejected with [PathNotFound]. *)
Lemma store_transaction_chunk_duplicate_completes :
  let tx := replicate 32 Byte.x11 in
  let tcp := CHUNKED_TRANSACTIONS ++ [hex_encode tx; "0"] in
  let aa := [Byte.x61; Byte.x61] in
  let bb := [Byte.x62; Byte.x62] in
  match create_chunked_transaction tx 2 (mkHost ∅ []) with
  | inr (_, h0) =>
      match store_transaction_chunk tx 0 aa h0 with
      | inr (None, h1) =>
          store h1 !! tcp = Some aa /\
          match store_transaction_chunk tx 0 aa h1 with
          | inr (Some full, h2) =>
              full = aa ++ aa /\ has_of (store h2) tcp = None /\
              store_transaction_chunk tx 1 bb h2 = inl (ErrRuntime PathNotFound)
          | _ => False
          end
      | _ => False
      end
  | _ => False
  end.
Proof.
  vm_compute. split; [reflexivity | split; [reflexivity | split; reflexivity]].
Qed.

(** ** C2 *)

(** C2 (amended): the completeness test of [store_transaction_chunk]
    compares [n] with the number of direct children of the per-hash subtree
    taken modulo [2^16] (the count is cast to [u16]); for fewer than [2^16]
    children it is true exactly when the number of children is at least
    [n]. It reads the store and changes nothing. *)
Theorem is_transaction_complete_iff (cp : path) (n : N) (h : Host) :
  exists b,
    is_transaction_complete cp n h = inr (b, h) /\
    (b = true <-> n <= N.of_nat (size (children (store h) cp)) mod 65536) /\
    (N.of_nat (size (children (store h) cp)) < 65536 ->
     (b = true <-> n <= N.of_nat (size (children (store h) cp)))).
Proof.
  eexists. split; [apply is_transaction_complete_eq |]. split.
  - apply N.leb_le.
  - intros Hlt. rewrite N.mod_small by lia. apply N.leb_le.
Qed.

(** C2, counterexample: that subtree has [65537] direct children, more
    than the [2] expected, yet the completeness test is false. *)
Lemma is_transaction_complete_wraps :
  let cp := CHUNKED_TRANSACTIONS ++ [hex_encode (replicate 32 Byte.x11)] in
  let h := mkHost (all_indices_store cp) [] in
  N.of_nat (size (children (store h) cp)) = 65537 /\
  is_transaction_complete cp 2 h = inr (false, h).
Proof.
  intros cp h.
  pose proof (children_holds_fragments
                (fragments_store cp 2 (indices 65536) (fun _ => [Byte.x00])) cp 2
                (indices 65536) (fun _ => [Byte.x00]) (NoDup_indices _)
                (fragments_store_holds _ _ _ _ (NoDup_indices _))) as E.
  rewrite length_indices in E.
  assert (N.of_nat (size (children (store h) cp)) = 65537) as Hsize.
  { change (store h) with (fragments_store cp 2 (indices 65536) (fun _ => [Byte.x00])).
    rewrite E, Nat2N.inj_succ, N2Nat.id. done. }
  split; [done|].
  rewrite is_transaction_complete_eq, Hsize. reflexivity.
Qed.

(** ** C4 *)




(** ** C5 *)

(** C5 (amended): storing as current block a block of number [n < 2^64],
    hash [hsh] and transaction hashes [txs] (each 32 bytes, at most 64 of
    them so that their concatenation fits one store value), over a store
    whose values at the four written paths, if any, are no longer than the
    new ones, succeeds; afterwards [read_current_block_number] returns [n],
    [read_current_block] returns the block [L2Block::new] builds from [n]
    and [txs], the transaction list read through the numbered path is
    [txs], and the numbered path holds the number and the hash. *)
Theorem store_current_block_read_back (L2Block_new_hash : N -> bytes) (n : N)
    (hsh : bytes) (txs : list TransactionHash) (h : Host) :
  n < 2 ^ 64 ->
  Forall (fun t => length t = TRANSACTION_HASH_SIZE) txs ->
  (length txs <= 64)%nat ->
  (length hsh <= MAX_FILE_CHUNK_SIZE)%nat ->
  overwritten_by (store h) (EVM_CURRENT_BLOCK ++ BLOCKS_NUMBER) (to_le 32 n) ->
  overwritten_by (store h) ((EVM_BLOCKS ++ [pretty n]) ++ BLOCKS_NUMBER) (to_le 32 n) ->
  overwritten_by (store h) ((EVM_BLOCKS ++ [pretty n]) ++ BLOCKS_HASH) hsh ->
  overwritten_by (store h) ((EVM_BLOCKS ++ [pretty n]) ++ BLOCKS_TRANSACTIONS)
    (List.concat txs) ->
  exists h',
    store_current_block (mkL2Block n hsh txs) h = inr (tt, h') /\
    read_current_block_number h' = inr (n, h') /\
    read_current_block L2Block_new_hash h' = inr (L2Block_new L2Block_new_hash n txs, h') /\
    read_nth_block_transactions (EVM_BLOCKS ++ [pretty n]) h' = inr (txs, h') /\
    store h' !! ((EVM_BLOCKS ++ [pretty n]) ++ BLOCKS_NUMBER) = Some (to_le 32 n) /\
    store h' !! ((EVM_BLOCKS ++ [pretty n]) ++ BLOCKS_HASH) = Some hsh.
Proof.
  intros Hn Hall Hcount Hhash O1 O2 O3 O4.
  assert (Hlen : (length (List.concat txs) <= MAX_FILE_CHUNK_SIZE)%nat).
  { rewrite length_concat_hashes by done.
    unfold TRANSACTION_HASH_SIZE, MAX_FILE_CHUNK_SIZE. lia. }
  pose proof (current_block_host_lookup (mkL2Block n hsh txs) h O1 O2 O3 O4)
    as (L1 & L2 & L3 & L4).
  cbn [number hash transactions] in L1, L2, L3, L4.
  exists (current_block_host (mkL2Block n hsh txs) h).
  assert (Hnum : read_current_block_number (current_block_host (mkL2Block n hsh txs) h) =
                 inr (n, current_block_host (mkL2Block n hsh txs) h)).
  { rewrite (read_current_block_number_ok _ n) by exact L1. by rewrite N.mod_small. }
  assert (Htxs : read_nth_block_transactions (EVM_BLOCKS ++ [pretty n])
                   (current_block_host (mkL2Block n hsh txs) h) =
                 inr (txs, current_block_host (mkL2Block n hsh txs) h)).
  { by apply read_nth_block_transactions_ok. }
  split; [by apply store_current_block_eq |].
  split; [exact Hnum |].
  split.
  - unfold read_current_block, read_current_block_nodebug.
    rewrite (bind_inr _ _ _ _ n Hnum).
    rewrite block_path_eq. unfold lift. rewrite bind_ret.
    rewrite (bind_inr _ _ _ _ txs Htxs). reflexivity.
  - done.
Qed.

(** Block 1 with two transaction hashes, stored over an empty store. *)
Lemma store_current_block_read_back_witness :
  let txs := [replicate 32 Byte.x01; replicate 32 Byte.x02] in
  let hsh := replicate 32 Byte.x22 in
  let h := mkHost ∅ [] in
  exists h',
    store_current_block (mkL2Block 1 hsh txs) h = inr (tt, h') /\
    read_current_block_number h' = inr (1, h') /\
    read_current_block (fun _ => []) h' = inr (L2Block_new (fun _ => []) 1 txs, h') /\
    read_nth_block_transactions (EVM_BLOCKS ++ [pretty 1]) h' = inr (txs, h') /\
    store h' !! ((EVM_BLOCKS ++ [pretty 1]) ++ BLOCKS_NUMBER) = Some (to_le 32 1) /\
    store h' !! ((EVM_BLOCKS ++ [pretty 1]) ++ BLOCKS_HASH) = Some hsh.
Proof.
  intros txs hsh h.
  apply (store_current_block_read_back (fun _ => []) 1 hsh txs h).
  - lia.
  - repeat constructor.
  - simpl. lia.
  - vm_compute. lia.
  - vm_compute. lia.
  - vm_compute. lia.
  - vm_compute. lia.
  - vm_compute. lia.
Defined.

(** C5, counterexample: (1) the block [read_current_block] returns always
    carries the hash [L2Block::new] derives from its number, whatever the
    store holds, so a block whose hash differs from that one is never read
    back; (2) with [L2Block::new] deriving the 32-byte little-endian
    number as hash, block 1 with hash [0x22 ... 0x22] stored as current
    block reads back as [L2Block::new 1 []], a different block;
    (3) after storing block [2^64] as current block,
    [read_current_block_number] returns [0], as it reads 8 of the 32 bytes
    written; (4) after storing block 1 with two transaction hashes and then
    block 1 with one, the transaction list read back has two hashes, as the
    shorter value is written over the longer one from offset 0. *)
Lemma store_current_block_read_back_fails :
  (forall (L2Block_new_hash : N -> bytes) (h h' : Host) (b : L2Block),
     read_current_block L2Block_new_hash h = inr (b, h') ->
     hash b = L2Block_new_hash (number b)) /\
  (let B := mkL2Block 1 (replicate 32 Byte.x22) [] in
   match store_current_block B (mkHost ∅ []) with
   | inr (_, h1) =>
       match read_current_block (to_le 32) h1 with
       | inr (b, _) => b = L2Block_new (to_le 32) 1 [] /\ b <> B
       | inl _ => False
       end
   | inl _ => False
   end) /\
  (match store_current_block (mkL2Block (2 ^ 64) [] []) (mkHost ∅ []) with
   | inr (_, h') =>
       match read_current_block_number h' with
       | inr (m, _) => m = 0
       | inl _ => False
       end
   | inl _ => False
   end) /\
  (forall L2Block_new_hash : N -> bytes,
   let t1 := replicate 32 Byte.x01 in
   let t2 := replicate 32 Byte.x02 in
   match store_current_block (mkL2Block 1 [] [t1; t2]) (mkHost ∅ []) with
   | inr (_, h1) =>
       match store_current_block (mkL2Block 1 [] [t1]) h1 with
       | inr (_, h2) =>
           match read_current_block L2Block_new_hash h2 with
           | inr (b, _) => transactions b = [t1; t2]
           | inl _ => False
           end
       | inl _ => False
       end
   | inl _ => False
   end).
Proof.
  split; [| split; [| split]].
  - intros f h h' b. unfold read_current_block, read_current_block_nodebug, bind.
    destruct (read_current_block_number h) as [e | [n h1]]; [discriminate |].
    destruct (lift (block_path n) h1) as [e | [bp h2]]; [discriminate |].
    destruct (read_nth_block_transactions bp h2) as [e | [txs h3]]; [discriminate |].
    unfold ret. intros E. injection E as <- _. reflexivity.
  - vm_compute. split; [reflexivity | discriminate].
  - vm_compute. reflexivity.
  - intros L2Block_new_hash. vm_compute. reflexivity.
Qed.

(** ** C9 *)

(** C9: a call of [store_current_block] on a block of number [n] either
    fails, exactly when the hash or the concatenated transaction hashes
    exceed the store-level cap, or succeeds after exactly four writes, in
    this order: the number at the number field of the current-block path,
    then the number, the hash and the concatenated transaction hashes under
    the numbered path of [n]. Every other path, the hash and transactions
    fields of the current-block path included, keeps its value. *)
Theorem store_current_block_writes (block : L2Block) (h : Host) :
  let n := number block in
  let bp := EVM_BLOCKS ++ [pretty n] in
  match store_current_block block h with
  | inr (_, h') =>
      writes h' = writes h ++
        [(EVM_CURRENT_BLOCK ++ BLOCKS_NUMBER, 0%nat, to_le 32 n);
         (bp ++ BLOCKS_NUMBER, 0%nat, to_le 32 n);
         (bp ++ BLOCKS_HASH, 0%nat, hash block);
         (bp ++ BLOCKS_TRANSACTIONS, 0%nat, List.concat (transactions block))] /\
      (forall k, k ∉ [EVM_CURRENT_BLOCK ++ BLOCKS_NUMBER; bp ++ BLOCKS_NUMBER;
                      bp ++ BLOCKS_HASH; bp ++ BLOCKS_TRANSACTIONS] ->
                 store h' !! k = store h !! k) /\
      store h' !! (EVM_CURRENT_BLOCK ++ BLOCKS_HASH) =
        store h !! (EVM_CURRENT_BLOCK ++ BLOCKS_HASH) /\
      store h' !! (EVM_CURRENT_BLOCK ++ BLOCKS_TRANSACTIONS) =
        store h !! (EVM_CURRENT_BLOCK ++ BLOCKS_TRANSACTIONS)
  | inl _ =>
      (MAX_FILE_CHUNK_SIZE < length (hash block) \/
       MAX_FILE_CHUNK_SIZE < length (List.concat (transactions block)))%nat
  end.
Proof.
  intros n bp.
  destruct (store_current_block block h) as [e | [u h']] eqn:E.
  - destruct (decide (length (hash block) <= MAX_FILE_CHUNK_SIZE)%nat);
      destruct (decide (length (List.concat (transactions block)) <= MAX_FILE_CHUNK_SIZE)%nat);
      [rewrite store_current_block_eq in E by done; discriminate | lia | lia | lia].
  - pose proof (store_current_block_inv _ _ _ _ E) as [Hh Ht].
    rewrite store_current_block_eq in E by done. injection E as E. subst h'.
    assert (Hframe : forall k,
      k ∉ [EVM_CURRENT_BLOCK ++ BLOCKS_NUMBER; bp ++ BLOCKS_NUMBER;
           bp ++ BLOCKS_HASH; bp ++ BLOCKS_TRANSACTIONS] ->
      store (current_block_host block h) !! k = store h !! k).
    { intros k Hk. unfold bp, n in Hk. rewrite !not_elem_of_cons in Hk.
      destruct Hk as (Ha & Hb & Hc & Hd & _).
      unfold current_block_host. cbn [store].
      rewrite !lookup_insert_ne by congruence. reflexivity. }
    split; [reflexivity |]. split; [exact Hframe |].
    split; apply Hframe; rewrite !not_elem_of_cons;
      (repeat split; [block_paths_ne ..| apply not_elem_of_nil]).
Qed.

(** ** C6 *)

(** C6 (amended): reading the expected fragment count of a chunked
    transaction fails with [PathNotFound] when the metadata was never
    written, and with [InvalidLoadValue 2 len] when the stored value has
    [len < 2] bytes; in both cases [store_transaction_chunk] fails with the
    same error. A value of two or more bytes is accepted: the count is its
    first two bytes, little-endian. *)
Theorem chunked_transaction_num_chunks_checks (tx_hash : TransactionHash) (cp : path)
    (h : Host) :
  chunked_transaction_path tx_hash = inr cp ->
  match store h !! (cp ++ CHUNKED_TRANSACTION_NUM_CHUNKS) with
  | None =>
      chunked_transaction_num_chunks tx_hash h = inl (ErrRuntime PathNotFound) /\
      (forall i p, store_transaction_chunk tx_hash i p h = inl (ErrRuntime PathNotFound))
  | Some v =>
      if (length v <? 2)%nat then
        chunked_transaction_num_chunks tx_hash h =
          inl (ErrStorage (InvalidLoadValue 2 (length v))) /\
        (forall i p, store_transaction_chunk tx_hash i p h =
                       inl (ErrStorage (InvalidLoadValue 2 (length v))))
      else chunked_transaction_num_chunks tx_hash h = inr (from_le (take 2 v), h)
  end.
Proof.
  intros Hcp.
  assert (Hnc : chunked_transaction_num_chunks tx_hash h =
                chunked_transaction_num_chunks_by_path cp h).
  { unfold chunked_transaction_num_chunks. rewrite Hcp. reflexivity. }
  assert (Hst : forall i p e, chunked_transaction_num_chunks_by_path cp h = inl e ->
                              store_transaction_chunk tx_hash i p h = inl e).
  { intros i p e He. rewrite (store_transaction_chunk_eq _ cp) by done. by apply bind_inl. }
  assert (Hread : chunked_transaction_num_chunks_by_path cp h =
                  bind (store_read_slice (cp ++ ["num_chunks"]) 2 2) (fun b => ret (from_le b)) h)
    by reflexivity.
  rewrite Hnc.
  destruct (store h !! (cp ++ CHUNKED_TRANSACTION_NUM_CHUNKS)) as [v |] eqn:Hv.
  - destruct (length v <? 2)%nat eqn:E.
    + assert (Hb : chunked_transaction_num_chunks_by_path cp h =
                   inl (ErrStorage (InvalidLoadValue 2 (length v)))).
      { rewrite Hread. apply bind_inl. apply store_read_slice_short;
          [exact Hv | by apply Nat.ltb_lt | unfold MAX_FILE_CHUNK_SIZE; lia]. }
      split; [done | intros; by apply Hst].
    + apply num_chunks_by_path_ok; [exact Hv | apply Nat.ltb_ge in E; lia].
  - assert (Hb : chunked_transaction_num_chunks_by_path cp h = inl (ErrRuntime PathNotFound)).
    { rewrite Hread. apply bind_inl. by apply store_read_slice_absent. }
    split; [done | intros; by apply Hst].
Qed.

(** A chunked transaction whose metadata is a single byte. *)
Lemma chunked_transaction_num_chunks_checks_witness :
  let tx := replicate 32 Byte.x11 in
  let cp := CHUNKED_TRANSACTIONS ++ [hex_encode tx] in
  let h := mkHost {[cp ++ ["num_chunks"] := [Byte.x05]]} [] in
  match store h !! (cp ++ CHUNKED_TRANSACTION_NUM_CHUNKS) with
  | None =>
      chunked_transaction_num_chunks tx h = inl (ErrRuntime PathNotFound) /\
      (forall i p, store_transaction_chunk tx i p h = inl (ErrRuntime PathNotFound))
  | Some v =>
      if (length v <? 2)%nat then
        chunked_transaction_num_chunks tx h =
          inl (ErrStorage (InvalidLoadValue 2 (length v))) /\
        (forall i p, store_transaction_chunk tx i p h =
                       inl (ErrStorage (InvalidLoadValue 2 (length v))))
      else chunked_transaction_num_chunks tx h = inr (from_le (take 2 v), h)
  end.
Proof.
  intros tx cp h.
  apply (chunked_transaction_num_chunks_checks tx cp h).
  vm_compute. reflexivity.
Defined.

(** C6, counterexample: a metadata value of three bytes [03 00 00] is not
    refused; the count read is [3]. *)
Lemma chunked_transaction_num_chunks_long_value :
  let tx := replicate 32 Byte.x11 in
  let cp := CHUNKED_TRANSACTIONS ++ [hex_encode tx] in
  let h := mkHost {[cp ++ ["num_chunks"] := [Byte.x03; Byte.x00; Byte.x00]]} [] in
  match chunked_transaction_num_chunks tx h with
  | inr (m, _) => m = 3
  | inl _ => False
  end.
Proof. vm_compute. reflexivity. Qed.

(** ** C7 *)



(** ** C8 *)

(** C8: the path derivations are total on their well-formed inputs and
    injective. The numbered path of a block is [/evm/blocks/<n>] in
    decimal, distinct for distinct numbers and never the current-block
    path; the chunked-transaction, receipt and object paths of a non-empty
    hash are the hex encoding of the hash under their prefix, distinct for
    distinct hashes, and they fail, with [InvalidPath], only for the empty
    hash, which no 32-byte hash is; the path of fragment [i] is the decimal
    [i] under the per-hash path, distinct for distinct indices and never the
    metadata path. *)
Theorem path_derivations :
  (forall n, block_path n = inr (EVM_BLOCKS ++ [pretty n])) /\
  (forall n m, block_path n = block_path m -> n = m) /\
  (forall n, block_path n <> inr EVM_CURRENT_BLOCK) /\
  (forall tx, tx <> [] ->
     chunked_transaction_path tx = inr (CHUNKED_TRANSACTIONS ++ [hex_encode tx]) /\
     receipt_path tx = inr (EVM_TRANSACTIONS_RECEIPTS ++ [hex_encode tx]) /\
     object_path tx = inr (EVM_TRANSACTIONS_OBJECTS ++ [hex_encode tx])) /\
  (forall tx1 tx2, chunked_transaction_path tx1 = chunked_transaction_path tx2 -> tx1 = tx2) /\
  (forall tx1 tx2, receipt_path tx1 = receipt_path tx2 -> tx1 = tx2) /\
  (forall tx1 tx2, object_path tx1 = object_path tx2 -> tx1 = tx2) /\
  (forall tx e, chunked_transaction_path tx = inl e \/ receipt_path tx = inl e \/
                object_path tx = inl e ->
                tx = [] /\ e = ErrPath InvalidPath) /\
  (forall cp i, transaction_chunk_path cp i = inr (cp ++ [pretty i])) /\
  (forall cp i j, transaction_chunk_path cp i = transaction_chunk_path cp j -> i = j) /\
  (forall cp i, transaction_chunk_path cp i <> chunked_transaction_num_chunks_path cp).
Proof.
  split; [exact block_path_eq |].
  split.
  { intros n m. rewrite !block_path_eq. unfold EVM_BLOCKS. cbn [app]. intros E.
    apply (inj pretty). congruence. }
  split.
  { intros n. rewrite block_path_eq. unfold EVM_BLOCKS, EVM_CURRENT_BLOCK. cbn [app].
    intros E. apply (pretty_ne_current n). congruence. }
  split.
  { intros tx Htx. split; [| split].
    - by apply chunked_transaction_path_eq.
    - by apply receipt_path_eq.
    - by apply object_path_eq. }
  split; [intros tx1 tx2; apply hash_path_inj |].
  split; [intros tx1 tx2; apply hash_path_inj |].
  split; [intros tx1 tx2; apply hash_path_inj |].
  split.
  { intros tx e [E | [E | E]]; revert E; apply hash_path_fail. }
  split; [exact transaction_chunk_path_eq |].
  split.
  { intros cp i j. rewrite !transaction_chunk_path_eq. intros E. injection E as E.
    apply app_inv_head in E. injection E as E. by apply (inj pretty). }
  intros cp i. rewrite transaction_chunk_path_eq. intros E. injection E as E.
  symmetry in E. by apply (chunk_path_ne_num_chunks cp i).
Qed.

(** * Further properties of storage.rs *)

(** ** Store writes at offset 0 *)

Lemma store_write_frame (p : path) (data : bytes) (off : nat) (h h1 : Host) (u : unit) :
  store_write p data off h = inr (u, h1) ->
  forall k, k <> p -> store h1 !! k = store h !! k.
Proof.
  intros E k Hk. apply store_write_inv in E as [_ ->]. simpl.
  by rewrite lookup_insert_ne by congruence.
Qed.

Lemma write_range_0_take (v data : bytes) :
  take (length data) (write_range v 0 data) = data.
Proof. unfold write_range. simpl. by rewrite take_app_length'. Qed.

Lemma length_write_range_0 (v data : bytes) :
  (length data <= length (write_range v 0 data))%nat.
Proof. unfold write_range. simpl. rewrite length_app. lia. Qed.

Lemma store_write_0 (p : path) (data : bytes) (h : Host) :
  (length data <= MAX_FILE_CHUNK_SIZE)%nat ->
  store_write p data 0 h =
  inr (tt, mkHost (<[p := write_range (default [] (store h !! p)) 0 data]> (store h))
                  (writes h ++ [(p, 0%nat, data)])).
Proof. intros Hl. apply store_write_ok; [done | lia]. Qed.

(** ** The smart rollup address *)

(** X1: storing a 20-byte rollup address and reading it back gives the
    address, whatever the path held before; no other path changes. *)
Theorem smart_rollup_address_round_trip (addr : bytes) (h : Host) :
  length addr = 20%nat ->
  exists h', store_smart_rollup_address addr h = inr (tt, h') /\
    read_smart_rollup_address h' = inr (addr, h') /\
    (forall k, k <> SMART_ROLLUP_ADDRESS -> store h' !! k = store h !! k).
Proof.
  intros Hl. unfold store_smart_rollup_address.
  rewrite store_write_0 by (rewrite Hl; unfold MAX_FILE_CHUNK_SIZE; lia).
  eexists. split; [reflexivity |]. split.
  - unfold read_smart_rollup_address.
    erewrite bind_inr.
    2:{ apply store_read_slice_ok.
        - cbn [store]. apply lookup_insert_eq.
        - rewrite <- Hl at 1. apply length_write_range_0.
        - unfold MAX_FILE_CHUNK_SIZE; lia. }
    rewrite <- Hl at 1. rewrite write_range_0_take. reflexivity.
  - intros k Hk. cbn [store]. by rewrite lookup_insert_ne by congruence.
Qed.

(** X2: reading the rollup address fails with [PathNotFound] when nothing
    is stored, with [InvalidLoadValue 20 len] when the value has
    [len < 20] bytes, and otherwise returns its first 20 bytes (a longer
    value is accepted). *)
Theorem read_smart_rollup_address_checks (h : Host) :
  match store h !! SMART_ROLLUP_ADDRESS with
  | None => read_smart_rollup_address h = inl (ErrRuntime PathNotFound)
  | Some v =>
      if (length v <? 20)%nat
      then read_smart_rollup_address h = inl (ErrStorage (InvalidLoadValue 20 (length v)))
      else read_smart_rollup_address h = inr (take 20 v, h)
  end.
Proof.
  unfold read_smart_rollup_address.
  destruct (store h !! SMART_ROLLUP_ADDRESS) as [v |] eqn:Hv.
  - destruct (length v <? 20)%nat eqn:E.
    + apply bind_inl, store_read_slice_short;
        [exact Hv | by apply Nat.ltb_lt | unfold MAX_FILE_CHUNK_SIZE; lia].
    + apply Nat.ltb_ge in E.
      erewrite bind_inr
        by (apply store_read_slice_ok; [exact Hv | lia | unfold MAX_FILE_CHUNK_SIZE; lia]).
      reflexivity.
  - by apply bind_inl, store_read_slice_absent.
Qed.

(** ** 256-bit words and addresses *)

(** X3: [write_u256] then [read_u256] at the same path gives the value
    (modulo [2^256]) whatever the path held before; no other path
    changes. *)
Theorem write_u256_read_u256 (p : path) (value : N) (h : Host) :
  exists h', write_u256 p value h = inr (tt, h') /\
    read_u256 p h' = inr (value mod 2 ^ 256, h') /\
    (forall k, k <> p -> store h' !! k = store h !! k).
Proof.
  unfold write_u256. rewrite store_write_0
    by (rewrite length_to_le; unfold WORD_SIZE, MAX_FILE_CHUNK_SIZE; lia).
  eexists. split; [reflexivity |]. split.
  - unfold read_u256. erewrite bind_inr.
    2:{ apply store_read_ok; [cbn [store]; apply lookup_insert_eq | lia]. }
    rewrite drop_0. replace (Nat.min WORD_SIZE MAX_FILE_CHUNK_SIZE) with
      (length (to_le WORD_SIZE value)) by (rewrite length_to_le; reflexivity).
    rewrite write_range_0_take, from_le_to_le. reflexivity.
  - intros k Hk. cbn [store]. by rewrite lookup_insert_ne by congruence.
Qed.

(** X4: [read_u256] fails only on a path without a value; otherwise it
    returns the little-endian number of the first 32 bytes, so a value
    shorter than 32 bytes (the empty one included) is read without error
    as the number its bytes encode. *)
Theorem read_u256_reads_prefix (p : path) (h : Host) :
  match store h !! p with
  | None => read_u256 p h = inl (ErrRuntime PathNotFound)
  | Some v => read_u256 p h = inr (from_le (take WORD_SIZE v), h)
  end.
Proof.
  unfold read_u256. destruct (store h !! p) as [v |] eqn:Hv.
  - erewrite bind_inr by (apply store_read_ok; [exact Hv | lia]).
    rewrite drop_0. reflexivity.
  - apply bind_inl. unfold store_read. by rewrite Hv.
Qed.

(** X5: [read_address] returns an error when the path holds no value,
    panics when the value has fewer than 20 bytes, and otherwise returns
    the first 20 bytes. *)
Theorem read_address_checks (p : path) (h : Host) :
  match store h !! p with
  | None => read_address p h = Some (inl (ErrRuntime PathNotFound))
  | Some v =>
      if (length v <? ADDRESS_SIZE)%nat then read_address p h = None
      else read_address p h = Some (inr (take ADDRESS_SIZE v, h))
  end.
Proof.
  unfold read_address. destruct (store h !! p) as [v |] eqn:Hv.
  - rewrite (store_read_ok h p v) by (done || lia). rewrite drop_0.
    replace (Nat.min ADDRESS_SIZE MAX_FILE_CHUNK_SIZE) with ADDRESS_SIZE by reflexivity.
    unfold H160_from_slice. rewrite length_take.
    destruct (length v <? ADDRESS_SIZE)%nat eqn:E.
    + apply Nat.ltb_lt in E.
      replace (Nat.min ADDRESS_SIZE (length v) =? ADDRESS_SIZE)%nat with false
        by (symmetry; apply Nat.eqb_neq; lia).
      reflexivity.
    + apply Nat.ltb_ge in E.
      replace (Nat.min ADDRESS_SIZE (length v) =? ADDRESS_SIZE)%nat with true
        by (symmetry; apply Nat.eqb_eq; lia).
      reflexivity.
  - unfold store_read. by rewrite Hv.
Qed.

(** ** The simulation result *)

(** X6: [store_simulation_result None] leaves the host as it is;
    [store_simulation_result (Some r)] fails when [r] exceeds the store
    cap, and otherwise performs one write of [r] at offset 0 of
    [/simulation_result], whose value becomes [r] followed by the bytes of
    the previous value past the length of [r]. *)
Theorem store_simulation_result_writes (result : option bytes) (h : Host) :
  match result with
  | None => store_simulation_result None h = inr (tt, h)
  | Some r =>
      if (MAX_FILE_CHUNK_SIZE <? length r)%nat
      then store_simulation_result (Some r) h = inl (ErrRuntime StoreValueSizeExceeded)
      else store_simulation_result (Some r) h =
             inr (tt, mkHost (<[SIMULATION_RESULT :=
                                r ++ drop (length r)
                                       (default [] (store h !! SIMULATION_RESULT))]>
                                (store h))
                             (writes h ++ [(SIMULATION_RESULT, 0%nat, r)]))
  end.
Proof.
  destruct result as [r |]; [| reflexivity].
  unfold store_simulation_result.
  destruct (MAX_FILE_CHUNK_SIZE <? length r)%nat eqn:E.
  - apply bind_inl. unfold store_write. by rewrite E.
  - apply Nat.ltb_ge in E. erewrite bind_inr by (by apply store_write_0).
    reflexivity.
Qed.

(** ** Chunked transactions *)

Lemma num_chunks_by_path_absent (h : Host) (cp : path) :
  store h !! (cp ++ ["num_chunks"]) = None ->
  chunked_transaction_num_chunks_by_path cp h = inl (ErrRuntime PathNotFound).
Proof.
  intros Hv.
  change (bind (store_read_slice (cp ++ ["num_chunks"]) 2 2) (fun b => ret (from_le b)) h
          = inl (ErrRuntime PathNotFound)).
  apply bind_inl. by apply store_read_slice_absent.
Qed.

Lemma store_transaction_chunk_data_fresh (tcp : path) (p : bytes) (h : Host) :
  store h !! tcp = None -> (length p <= 2 * MAX_FILE_CHUNK_SIZE)%nat ->
  exists ws, store_transaction_chunk_data tcp p h =
             inr (tt, mkHost (<[tcp := p]> (store h)) (writes h ++ ws)).
Proof.
  intros Hnone Hle.
  unfold store_transaction_chunk_data, store_has.
  rewrite (bind_inr _ _ h h (has_of (store h) tcp)) by reflexivity.
  assert (Hhas : has_of (store h) tcp = None \/ has_of (store h) tcp = Some Subtree).
  { unfold has_of. rewrite Hnone. destruct (has_subtree (store h) tcp); auto. }
  assert (Hw : exists ws,
             (if (MAX_FILE_CHUNK_SIZE <? length p)%nat then
                let* _ := store_write tcp (take MAX_FILE_CHUNK_SIZE p) 0 in
                store_write tcp (drop MAX_FILE_CHUNK_SIZE p) MAX_FILE_CHUNK_SIZE
              else store_write tcp p 0) h =
             inr (tt, mkHost (<[tcp := p]> (store h)) (writes h ++ ws))).
  { destruct (MAX_FILE_CHUNK_SIZE <? length p)%nat eqn:E.
    - apply Nat.ltb_lt in E.
      erewrite bind_inr
        by (apply store_write_ok; [rewrite length_take; lia | rewrite Hnone; simpl; lia]).
      rewrite store_write_ok; cbn [store writes]; rewrite ?lookup_insert_eq, ?Hnone;
        cbn [default from_option id].
      + rewrite insert_insert_eq, write_range_nil, write_range_end
          by (rewrite length_take; lia).
        rewrite take_drop, <- app_assoc. eexists; reflexivity.
      + rewrite length_drop. lia.
      + rewrite write_range_nil, length_take. lia.
    - apply Nat.ltb_ge in E. rewrite store_write_0 by done. rewrite Hnone.
      cbn [default from_option id]. rewrite write_range_nil. eexists; reflexivity. }
  destruct Hhas as [-> | ->]; exact Hw.
Qed.

Lemma children_insert_single (s : gmap path bytes) (cp : path) (c : string) (v : bytes) :
  has_of s cp = None -> children (<[cp ++ [c] := v]> s) cp = {[c]}.
Proof.
  intros Hn. apply has_of_None in Hn as [_ Hn].
  apply set_eq. intros c'. rewrite elem_of_children, elem_of_singleton. split.
  - intros (r & w & Hw). rewrite lookup_insert in Hw. case_decide as E.
    + apply app_inv_head in E. injection E as E1 E2. by subst.
    + exfalso. by apply (Hn (c' :: r) w).
  - intros ->. exists [], v. apply lookup_insert_eq.
Qed.

Lemma has_of_insert_sibling (s : gmap path bytes) (cp : path) (c d : string) (v : bytes) :
  has_of s cp = None -> c <> d -> has_of (<[cp ++ [c] := v]> s) (cp ++ [d]) = None.
Proof.
  intros Hn Hcd. apply has_of_None in Hn as [_ Hn]. apply has_of_None. split.
  - rewrite lookup_insert_ne.
    + destruct (s !! (cp ++ [d])) as [w |] eqn:Ew; [| done].
      exfalso. by apply (Hn [d] w).
    + intros E. apply app_inv_head in E. by injection E.
  - intros r w Hr. rewrite lookup_insert_ne.
    + rewrite <- app_assoc. apply Hn. by destruct r.
    + intros E. rewrite <- app_assoc in E. apply app_inv_head in E. by injection E.
Qed.

Lemma children_insert_fresh (s : gmap path bytes) (cp : path) (c : string) (v : bytes) :
  has_of s (cp ++ [c]) = None ->
  size (children (<[cp ++ [c] := v]> s) cp) = S (size (children s cp)).
Proof.
  intros Hfree. apply has_of_None in Hfree as [Hnone Hsub].
  assert (Hc : c ∉ children s cp).
  { intros (r & w & Hw)%elem_of_children. destruct r as [| x r].
    - congruence.
    - apply (Hsub (x :: r) w); [done |]. by rewrite <- app_assoc. }
  assert (E : children (<[cp ++ [c] := v]> s) cp = children s cp ∪ {[c]}).
  { apply set_eq. intros c'. rewrite elem_of_union, elem_of_singleton, !elem_of_children.
    split.
    - intros (r & w & Hw). rewrite lookup_insert in Hw. case_decide as E.
      + apply app_inv_head in E. injection E as E1 E2. subst. by right.
      + left. eauto.
    - intros [(r & w & Hw) | ->].
      + exists r, w. rewrite lookup_insert_ne; [done |]. intros E.
        apply app_inv_head in E. injection E as E1 E2. subst. congruence.
      + exists [], v. apply lookup_insert_eq. }
  rewrite E, size_union, size_singleton; [lia |].
  by apply disjoint_singleton_r.
Qed.

(** X7: creating a chunked transaction with [n] expected fragments writes
    only its metadata path, and reading the expected fragment count back
    gives [n], whatever the metadata path held before. *)
Theorem create_chunked_transaction_num_chunks (tx_hash : TransactionHash) (cp : path)
    (n : N) (h : Host) :
  chunked_transaction_path tx_hash = inr cp -> n < 65536 ->
  exists h', create_chunked_transaction tx_hash n h = inr (tt, h') /\
    chunked_transaction_num_chunks tx_hash h' = inr (n, h') /\
    (forall k, k <> cp ++ CHUNKED_TRANSACTION_NUM_CHUNKS -> store h' !! k = store h !! k).
Proof.
  intros Hcp Hn. unfold create_chunked_transaction. rewrite Hcp.
  unfold lift at 1. rewrite bind_ret.
  unfold chunked_transaction_num_chunks_path, concat, lift. rewrite bind_ret.
  rewrite store_write_0 by (rewrite length_to_le; unfold MAX_FILE_CHUNK_SIZE; lia).
  eexists. split; [reflexivity |]. split.
  - unfold chunked_transaction_num_chunks. rewrite Hcp. unfold lift. rewrite bind_ret.
    erewrite num_chunks_by_path_ok.
    + replace 2%nat with (length (to_le 2 n)) at 1 by apply length_to_le.
      rewrite write_range_0_take, from_le_to_le_2 by done. reflexivity.
    + cbn [store]. apply lookup_insert_eq.
    + etransitivity; [| apply length_write_range_0]. by rewrite length_to_le.
  - intros k Hk. cbn [store]. by rewrite lookup_insert_ne by congruence.
Qed.

(** X8: a chunked transaction created with at most one expected fragment,
    on a hash with no chunked-transaction subtree, completes on its first
    submission, whatever its index: with one expected fragment the call
    returns the submitted payload, with zero it returns the empty payload
    and the submitted one is dropped; the subtree is deleted. *)
Theorem create_chunked_transaction_at_most_one (tx_hash : TransactionHash) (cp : path)
    (n i : N) (p : bytes) (h : Host) :
  chunked_transaction_path tx_hash = inr cp ->
  has_of (store h) cp = None -> n <= 1 ->
  exists h1 h2, create_chunked_transaction tx_hash n h = inr (tt, h1) /\
    store_transaction_chunk tx_hash i p h1 =
      inr (Some (if n =? 0 then [] else p), h2) /\
    has_of (store h2) cp = None.
Proof.
  intros Hcp Hfree Hn.
  assert (Hmeta : store h !! (cp ++ ["num_chunks"]) = None).
  { apply has_of_None in Hfree as [_ Hs].
    destruct (store h !! (cp ++ ["num_chunks"])) as [w |] eqn:Ew; [| done].
    exfalso. by apply (Hs ["num_chunks"] w). }
  unfold create_chunked_transaction. rewrite Hcp.
  unfold lift at 1. rewrite bind_ret.
  unfold chunked_transaction_num_chunks_path, concat, lift. rewrite bind_ret.
  rewrite store_write_0 by (rewrite length_to_le; unfold MAX_FILE_CHUNK_SIZE; lia).
  change (cp ++ CHUNKED_TRANSACTION_NUM_CHUNKS) with (cp ++ ["num_chunks"]).
  rewrite Hmeta. cbn [default from_option id]. rewrite write_range_nil.
  set (s1 := <[cp ++ ["num_chunks"] := to_le 2 n]> (store h)).
  set (h1 := mkHost s1 (writes h ++ [(cp ++ ["num_chunks"], 0%nat, to_le 2 n)])).
  assert (Hchildren : size (children (store h1) cp) = 1%nat).
  { unfold h1, s1. cbn [store]. rewrite children_insert_single by done.
    apply size_singleton. }
  assert (Hloop : get_full_transaction cp n p h1 =
                  inr (mjoin ((fun _ => p) <$> indices n), h1)).
  { unfold get_full_transaction. rewrite (get_full_transaction_loop_ok h1 cp _ p [] (fun _ => p)).
    - reflexivity.
    - intros k _. left. split; [| done]. unfold h1, s1. cbn [store].
      apply has_of_insert_sibling; [done |]. intros E. by apply (pretty_ne_num_chunks k). }
  exists h1, (mkHost (delete_under (store h1) cp) (writes h1)).
  split; [reflexivity |]. split.
  - rewrite (store_transaction_chunk_eq _ cp) by done.
    erewrite bind_inr.
    2:{ apply num_chunks_by_path_ok; [apply lookup_insert_eq | rewrite length_to_le; lia]. }
    rewrite take_ge, from_le_to_le_2 by (rewrite ?length_to_le; lia).
    erewrite bind_inr by apply is_transaction_complete_eq.
    rewrite Hchildren.
    replace (N.of_nat 1 mod 65536) with 1 by reflexivity.
    replace (n <=? 1) with true by (symmetry; apply N.leb_le; lia).
    erewrite bind_inr by exact Hloop.
    rewrite bind_inr with (a := tt) (h' := mkHost (delete_under (store h1) cp) (writes h1))
      by (apply (store_delete_ok _ _ ["num_chunks"] (to_le 2 n)); apply lookup_insert_eq).
    assert (n = 0 \/ n = 1) as [-> | ->] by lia; [reflexivity |].
    unfold ret. change (mjoin ((fun _ : N => p) <$> indices 1)) with (p ++ []).
    by rewrite app_nil_r.
  - apply has_of_delete_under.
Qed.

(** X9: removing a chunked transaction with nothing stored at or under its
    per-hash path fails with [PathNotFound]. Otherwise it deletes every
    path under its per-hash path and keeps every other path; afterwards its
    expected fragment count cannot be read and every submission of a
    fragment for it fails with [PathNotFound]. *)
Theorem remove_chunked_transaction_clears (tx_hash : TransactionHash) (cp : path) (h : Host) :
  chunked_transaction_path tx_hash = inr cp ->
  match has_of (store h) cp with
  | None => remove_chunked_transaction tx_hash h = inl (ErrRuntime PathNotFound)
  | Some _ =>
      exists h', remove_chunked_transaction tx_hash h = inr (tt, h') /\
        (forall k, store h' !! k = if is_under cp k then None else store h !! k) /\
        chunked_transaction_num_chunks tx_hash h' = inl (ErrRuntime PathNotFound) /\
        (forall i p, store_transaction_chunk tx_hash i p h' = inl (ErrRuntime PathNotFound))
  end.
Proof.
  intros Hcp. unfold remove_chunked_transaction. rewrite Hcp. unfold lift. rewrite bind_ret.
  unfold remove_chunked_transaction_by_path, store_delete.
  destruct (has_of (store h) cp) as [vt |] eqn:Hhas; [| reflexivity].
  set (h' := mkHost (delete_under (store h) cp) (writes h)).
  exists h'. split; [reflexivity |].
  assert (Hnc : store h' !! (cp ++ ["num_chunks"]) = None).
  { unfold h'. cbn [store]. rewrite lookup_delete_under. by rewrite is_under_app. }
  split; [intros k; apply lookup_delete_under |]. split.
  - unfold chunked_transaction_num_chunks. rewrite Hcp. unfold lift. rewrite bind_ret.
    by apply num_chunks_by_path_absent.
  - intros i p. rewrite (store_transaction_chunk_eq _ cp) by done.
    apply bind_inl. by apply num_chunks_by_path_absent.
Qed.

(** X10: reading a fragment fails with [PathNotFound] when its path holds
    no value, and otherwise returns the first [2 * cap] bytes of the value:
    the whole value up to 4096 bytes, a longer value cut there. *)
Theorem read_transaction_chunk_data_reads_prefix (tcp : path) (h : Host) :
  match store h !! tcp with
  | None => read_transaction_chunk_data tcp h = inl (ErrRuntime PathNotFound)
  | Some v => read_transaction_chunk_data tcp h = inr (take (2 * MAX_FILE_CHUNK_SIZE) v, h)
  end.
Proof.
  unfold read_transaction_chunk_data. destruct (store h !! tcp) as [v |] eqn:Hv.
  - erewrite bind_inr by (by apply store_value_size_ok).
    destruct (MAX_FILE_CHUNK_SIZE <? length v)%nat eqn:E.
    + apply Nat.ltb_lt in E.
      erewrite bind_inr by (apply store_read_ok; [exact Hv | lia]).
      erewrite bind_inr by (apply store_read_ok; [exact Hv | lia]).
      rewrite drop_0, Nat.min_id. unfold ret. rewrite take_take_drop.
      replace (2 * MAX_FILE_CHUNK_SIZE)%nat
        with (MAX_FILE_CHUNK_SIZE + MAX_FILE_CHUNK_SIZE)%nat by lia.
      reflexivity.
    + apply Nat.ltb_ge in E. rewrite (store_read_ok _ _ v) by (done || lia).
      rewrite drop_0, Nat.min_id, !take_ge by lia. reflexivity.
  - apply bind_inl. unfold store_value_size. by rewrite Hv.
Qed.

(** X11: storing a fragment at a path that already holds a value does
    nothing and succeeds, whatever the payload, also one longer than the
    store could take. *)
Theorem store_transaction_chunk_data_keeps (tcp : path) (p : bytes) (h : Host) :
  is_Some (store h !! tcp) -> store_transaction_chunk_data tcp p h = inr (tt, h).
Proof.
  intros [v Hv]. unfold store_transaction_chunk_data, store_has.
  rewrite (bind_inr _ _ h h (has_of (store h) tcp)) by reflexivity.
  destruct (has_of_value _ _ _ Hv) as [-> | ->]; reflexivity.
Qed.

(** X12: a fragment payload of at most [cap] bytes, stored at a path that
    holds no value, is written by one write at offset 0; the path then
    holds the payload and reading the fragment gives it back. *)
Theorem store_transaction_chunk_data_single (tcp : path) (p : bytes) (h : Host) :
  store h !! tcp = None -> (length p <= MAX_FILE_CHUNK_SIZE)%nat ->
  let h' := mkHost (<[tcp := p]> (store h)) (writes h ++ [(tcp, 0%nat, p)]) in
  store_transaction_chunk_data tcp p h = inr (tt, h') /\
  read_transaction_chunk_data tcp h' = inr (p, h').
Proof.
  intros Hnone Hle h'. split.
  - unfold store_transaction_chunk_data, store_has.
    rewrite (bind_inr _ _ h h (has_of (store h) tcp)) by reflexivity.
    assert (Hw : (if (MAX_FILE_CHUNK_SIZE <? length p)%nat then
                    let* _ := store_write tcp (take MAX_FILE_CHUNK_SIZE p) 0 in
                    store_write tcp (drop MAX_FILE_CHUNK_SIZE p) MAX_FILE_CHUNK_SIZE
                  else store_write tcp p 0) h = inr (tt, h')).
    { replace (MAX_FILE_CHUNK_SIZE <? length p)%nat with false
        by (symmetry; apply Nat.ltb_ge; lia).
      rewrite store_write_0 by done. rewrite Hnone. cbn [default from_option id].
      by rewrite write_range_nil. }
    unfold has_of. rewrite Hnone. by destruct (has_subtree (store h) tcp).
  - apply read_transaction_chunk_data_ok; [apply lookup_insert_eq | lia].
Qed.

(** X13: [store_transaction_chunk] does not check the fragment index
    against the expected count: on a chunked transaction that stays
    incomplete, a fragment of any index [i] whose path holds nothing, with
    a payload of at most [2 * cap] bytes, is stored at the path of [i], no
    other path changes, and the per-hash subtree gains one direct child,
    which counts toward completion even when [i >= n]. *)
Theorem store_transaction_chunk_any_index (tx_hash : TransactionHash) (cp : path)
    (i n : N) (p : bytes) (h : Host) :
  chunked_transaction_path tx_hash = inr cp ->
  store h !! (cp ++ ["num_chunks"]) = Some (to_le 2 n) -> n < 65536 ->
  N.of_nat (size (children (store h) cp)) mod 65536 < n ->
  has_of (store h) (cp ++ [pretty i]) = None ->
  (length p <= 2 * MAX_FILE_CHUNK_SIZE)%nat ->
  exists h1, store_transaction_chunk tx_hash i p h = inr (None, h1) /\
    store h1 !! (cp ++ [pretty i]) = Some p /\
    (forall k, k <> cp ++ [pretty i] -> store h1 !! k = store h !! k) /\
    size (children (store h1) cp) = S (size (children (store h) cp)).
Proof.
  intros Hcp Hmeta Hn Hinc Hfree Hlen.
  assert (Hnone : store h !! (cp ++ [pretty i]) = None)
    by (apply has_of_None in Hfree; tauto).
  destruct (store_transaction_chunk_data_fresh _ p h Hnone Hlen) as [ws Hws].
  exists (mkHost (<[cp ++ [pretty i] := p]> (store h)) (writes h ++ ws)).
  split.
  - rewrite (store_transaction_chunk_eq _ cp) by done.
    erewrite bind_inr.
    2:{ apply num_chunks_by_path_ok; [exact Hmeta | rewrite length_to_le; lia]. }
    rewrite take_ge, from_le_to_le_2 by (rewrite ?length_to_le; lia).
    erewrite bind_inr by apply is_transaction_complete_eq.
    apply N.leb_gt in Hinc. rewrite Hinc.
    rewrite transaction_chunk_path_eq. unfold lift. rewrite bind_ret.
    erewrite bind_inr by exact Hws. reflexivity.
  - cbn [store]. split; [apply lookup_insert_eq |]. split.
    + intros k Hk. by rewrite lookup_insert_ne by congruence.
    + by apply children_insert_fresh.
Qed.

(** ** Blocks *)

Lemma store_block_by_number_ok (block : L2Block) (h : Host) :
  let bp := EVM_BLOCKS ++ [pretty (number block)] in
  (length (hash block) <= MAX_FILE_CHUNK_SIZE)%nat ->
  (length (List.concat (transactions block)) <= MAX_FILE_CHUNK_SIZE)%nat ->
  exists h', store_block_by_number block h = inr (tt, h') /\
    store h' !! (bp ++ BLOCKS_TRANSACTIONS) =
      Some (write_range (default [] (store h !! (bp ++ BLOCKS_TRANSACTIONS))) 0
              (List.concat (transactions block))) /\
    (forall k, k <> bp ++ BLOCKS_NUMBER -> k <> bp ++ BLOCKS_HASH ->
               k <> bp ++ BLOCKS_TRANSACTIONS -> store h' !! k = store h !! k).
Proof.
  intros bp Hh Ht.
  unfold store_block_by_number, store_block, store_block_number, store_block_hash,
    store_block_transactions.
  rewrite block_path_eq. unfold lift, concat. cbv beta iota zeta.
  rewrite bind_ret.
  erewrite (bind_inr _ _ h _ tt) by (rewrite bind_ret; apply store_write_0;
    rewrite length_to_le; unfold MAX_FILE_CHUNK_SIZE; lia).
  erewrite (bind_inr _ _ _ _ tt) by (rewrite bind_ret; by apply store_write_0).
  rewrite bind_ret, store_write_0 by done.
  eexists. split; [reflexivity |]. cbn [store]. fold bp.
  assert (bp ++ BLOCKS_NUMBER <> bp ++ BLOCKS_HASH) by block_paths_ne.
  assert (bp ++ BLOCKS_NUMBER <> bp ++ BLOCKS_TRANSACTIONS) by block_paths_ne.
  assert (bp ++ BLOCKS_HASH <> bp ++ BLOCKS_TRANSACTIONS) by block_paths_ne.
  split.
  - rewrite lookup_insert_eq, !lookup_insert_ne by done. reflexivity.
  - intros k Hk1 Hk2 Hk3. by rewrite !lookup_insert_ne by congruence.
Qed.

(** X14: storing a block by its number, when its transaction hashes (32
    bytes each, at most 64 of them) and its hash fit one store value and
    the transactions value of its numbered path was no longer than the new
    one, succeeds; the transaction list read back through the numbered path
    is the block's, and the current-block pointer keeps its value. *)
Theorem store_block_by_number_read_back (block : L2Block) (h : Host) :
  let bp := EVM_BLOCKS ++ [pretty (number block)] in
  Forall (fun t => length t = TRANSACTION_HASH_SIZE) (transactions block) ->
  (length (transactions block) <= 64)%nat ->
  (length (hash block) <= MAX_FILE_CHUNK_SIZE)%nat ->
  overwritten_by (store h) (bp ++ BLOCKS_TRANSACTIONS) (List.concat (transactions block)) ->
  exists h', store_block_by_number block h = inr (tt, h') /\
    read_nth_block_transactions bp h' = inr (transactions block, h') /\
    store h' !! (EVM_CURRENT_BLOCK ++ BLOCKS_NUMBER) =
      store h !! (EVM_CURRENT_BLOCK ++ BLOCKS_NUMBER).
Proof.
  intros bp Hall Hlen Hh Hov. subst bp.
  assert (Hcat : (length (List.concat (transactions block)) <= MAX_FILE_CHUNK_SIZE)%nat).
  { rewrite length_concat_hashes by done.
    unfold TRANSACTION_HASH_SIZE, MAX_FILE_CHUNK_SIZE. lia. }
  destruct (store_block_by_number_ok block h Hh Hcat) as (h' & E & Ht & Hf).
  exists h'. split; [done |]. split.
  - apply read_nth_block_transactions_ok; [| done | done].
    rewrite Ht. unfold overwritten_by in Hov. by rewrite write_range_0.
  - apply Hf; block_paths_ne.
Qed.

(** X16: reading the current block number fails with [PathNotFound] when
    the pointer holds no value, with [InvalidLoadValue 8 len] when it has
    [len < 8] bytes, and otherwise returns the little-endian number of its
    first 8 bytes (the 32 bytes [store_current_block] writes included). *)
Theorem read_current_block_number_checks (h : Host) :
  match store h !! (EVM_CURRENT_BLOCK ++ BLOCKS_NUMBER) with
  | None => read_current_block_number h = inl (ErrRuntime PathNotFound)
  | Some v =>
      if (length v <? 8)%nat
      then read_current_block_number h = inl (ErrStorage (InvalidLoadValue 8 (length v)))
      else read_current_block_number h = inr (from_le (take 8 v), h)
  end.
Proof.
  unfold read_current_block_number, lift, concat. cbv beta iota. rewrite bind_ret.
  destruct (store h !! (EVM_CURRENT_BLOCK ++ BLOCKS_NUMBER)) as [v |] eqn:Hv.
  - destruct (length v <? 8)%nat eqn:E.
    + apply bind_inl, store_read_slice_short;
        [exact Hv | by apply Nat.ltb_lt | unfold MAX_FILE_CHUNK_SIZE; lia].
    + apply Nat.ltb_ge in E.
      erewrite bind_inr
        by (apply store_read_slice_ok; [exact Hv | lia | unfold MAX_FILE_CHUNK_SIZE; lia]).
      reflexivity.
  - by apply bind_inl, store_read_slice_absent.
Qed.

(** ** Disjoint entity paths *)

Lemma is_under_true (p k : path) : is_under p k = true -> exists r, k = p ++ r.
Proof.
  unfold is_under. destruct (strip_prefix p k) as [r |] eqn:E; [| discriminate].
  intros _. exists r. by apply strip_prefix_Some.
Qed.

(** X15: the paths of the entities never overlap: no one of a block path,
    a receipt path, an object path, a chunked-transaction path, the
    current-block path, the rollup address path and the simulation result
    path is equal to or a prefix of another, so a write or a subtree
    delete of one entity never reaches another. *)
Theorem derived_paths_disjoint (n : N) (r o c : TransactionHash) (bp rp op cp : path) :
  block_path n = inr bp -> receipt_path r = inr rp -> object_path o = inr op ->
  chunked_transaction_path c = inr cp ->
  let ps := [bp; rp; op; cp; EVM_CURRENT_BLOCK; SMART_ROLLUP_ADDRESS; SIMULATION_RESULT] in
  forall i j a b, i <> j -> ps !! i = Some a -> ps !! j = Some b -> is_under a b = false.
Proof.
  intros Hb Hr Ho Hc ps.
  rewrite block_path_eq in Hb. injection Hb as <-.
  destruct r as [| x r]; [discriminate |].
  rewrite receipt_path_eq in Hr by done. injection Hr as <-.
  destruct o as [| y o]; [discriminate |].
  rewrite object_path_eq in Ho by done. injection Ho as <-.
  destruct c as [| z c]; [discriminate |].
  rewrite chunked_transaction_path_eq in Hc by done. injection Hc as <-.
  pose proof (pretty_ne_current n) as Hcur.
  intros i j a b Hij Ha Hb.
  destruct (is_under a b) eqn:Hu; [exfalso | done].
  apply is_under_true in Hu as [rest Hrest].
  unfold ps, EVM_BLOCKS, EVM_TRANSACTIONS_RECEIPTS, EVM_TRANSACTIONS_OBJECTS,
    CHUNKED_TRANSACTIONS, EVM_CURRENT_BLOCK, SMART_ROLLUP_ADDRESS, SIMULATION_RESULT in Ha, Hb.
  destruct i as [| [| [| [| [| [| [| i]]]]]]]; cbn [lookup list_lookup] in Ha;
    try discriminate;
  destruct j as [| [| [| [| [| [| [| j]]]]]]]; cbn [lookup list_lookup] in Hb;
    try discriminate; try lia;
  injection Ha as <-; injection Hb as <-; cbn [app] in Hrest; congruence.
Qed.

Lemma smart_rollup_address_round_trip_witness :
  let addr := replicate 20 Byte.x07 in
  let h := mkHost {[SMART_ROLLUP_ADDRESS := replicate 25 Byte.x01]} [] in
  exists h', store_smart_rollup_address addr h = inr (tt, h') /\
    read_smart_rollup_address h' = inr (addr, h') /\
    (forall k, k <> SMART_ROLLUP_ADDRESS -> store h' !! k = store h !! k).
Proof.
  intros addr h. apply (smart_rollup_address_round_trip addr h). reflexivity.
Defined.
Lemma create_chunked_transaction_num_chunks_witness :
  let tx := replicate 32 Byte.x11 in
  let cp := CHUNKED_TRANSACTIONS ++ [hex_encode tx] in
  let h := mkHost {[cp ++ ["num_chunks"] := [Byte.x09; Byte.x00; Byte.x05]]} [] in
  exists h', create_chunked_transaction tx 3 h = inr (tt, h') /\
    chunked_transaction_num_chunks tx h' = inr (3, h') /\
    (forall k, k <> cp ++ CHUNKED_TRANSACTION_NUM_CHUNKS -> store h' !! k = store h !! k).
Proof.
  intros tx cp h. apply (create_chunked_transaction_num_chunks tx cp 3 h).
  - vm_compute. reflexivity.
  - lia.
Defined.
Lemma create_chunked_transaction_at_most_one_witness :
  let tx := replicate 32 Byte.x11 in
  let cp := CHUNKED_TRANSACTIONS ++ [hex_encode tx] in
  let h := mkHost ∅ [] in
  exists h1 h2, create_chunked_transaction tx 1 h = inr (tt, h1) /\
    store_transaction_chunk tx 4 [Byte.x61] h1 =
      inr (Some (if 1 =? 0 then [] else [Byte.x61]), h2) /\
    has_of (store h2) cp = None.
Proof.
  intros tx cp h. apply (create_chunked_transaction_at_most_one tx cp 1 4 [Byte.x61] h).
  - vm_compute. reflexivity.
  - vm_compute. reflexivity.
  - lia.
Defined.
Lemma remove_chunked_transaction_clears_witness :
  let tx := replicate 32 Byte.x11 in
  let cp := CHUNKED_TRANSACTIONS ++ [hex_encode tx] in
  let h := mkHost {[cp ++ ["num_chunks"] := to_le 2 3]} [] in
  match has_of (store h) cp with
  | None => remove_chunked_transaction tx h = inl (ErrRuntime PathNotFound)
  | Some _ =>
      exists h', remove_chunked_transaction tx h = inr (tt, h') /\
        (forall k, store h' !! k = if is_under cp k then None else store h !! k) /\
        chunked_transaction_num_chunks tx h' = inl (ErrRuntime PathNotFound) /\
        (forall i p, store_transaction_chunk tx i p h' = inl (ErrRuntime PathNotFound))
  end.
Proof.
  intros tx cp h. apply (remove_chunked_transaction_clears tx cp h).
  vm_compute. reflexivity.
Defined.
Lemma store_transaction_chunk_data_keeps_witness :
  let tcp := CHUNKED_TRANSACTIONS ++ ["11"; "0"] in
  let h := mkHost {[tcp := [Byte.x01]]} [] in
  store_transaction_chunk_data tcp [Byte.x02; Byte.x03] h = inr (tt, h).
Proof.
  intros tcp h. apply (store_transaction_chunk_data_keeps tcp [Byte.x02; Byte.x03] h).
  eexists. reflexivity.
Defined.
Lemma store_transaction_chunk_data_single_witness :
  let tcp := CHUNKED_TRANSACTIONS ++ ["11"; "0"] in
  let p := [Byte.x61; Byte.x62] in
  let h := mkHost ∅ [] in
  let h' := mkHost (<[tcp := p]> (store h)) (writes h ++ [(tcp, 0%nat, p)]) in
  store_transaction_chunk_data tcp p h = inr (tt, h') /\
  read_transaction_chunk_data tcp h' = inr (p, h').
Proof.
  intros tcp p h h'. apply (store_transaction_chunk_data_single tcp p h).
  - reflexivity.
  - simpl. unfold MAX_FILE_CHUNK_SIZE. lia.
Defined.
Lemma store_transaction_chunk_any_index_witness :
  let tx := replicate 32 Byte.x11 in
  let cp := CHUNKED_TRANSACTIONS ++ [hex_encode tx] in
  let h := mkHost {[cp ++ ["num_chunks"] := to_le 2 3]} [] in
  exists h1, store_transaction_chunk tx 7 [Byte.x61] h = inr (None, h1) /\
    store h1 !! (cp ++ [pretty 7]) = Some [Byte.x61] /\
    (forall k, k <> cp ++ [pretty 7] -> store h1 !! k = store h !! k) /\
    size (children (store h1) cp) = S (size (children (store h) cp)).
Proof.
  intros tx cp h. apply (store_transaction_chunk_any_index tx cp 7 3 [Byte.x61] h).
  - vm_compute. reflexivity.
  - reflexivity.
  - lia.
  - vm_compute. reflexivity.
  - vm_compute. reflexivity.
  - simpl. unfold MAX_FILE_CHUNK_SIZE. lia.
Defined.
Lemma store_block_by_number_read_back_witness :
  let block := mkL2Block 1 [Byte.x22] [replicate 32 Byte.x11; replicate 32 Byte.x33] in
  let h := mkHost ∅ [] in
  let bp := EVM_BLOCKS ++ [pretty (number block)] in
  exists h', store_block_by_number block h = inr (tt, h') /\
    read_nth_block_transactions bp h' = inr (transactions block, h') /\
    store h' !! (EVM_CURRENT_BLOCK ++ BLOCKS_NUMBER) =
      store h !! (EVM_CURRENT_BLOCK ++ BLOCKS_NUMBER).
Proof.
  intros block h bp. apply (store_block_by_number_read_back block h).
  - repeat constructor.
  - simpl. lia.
  - simpl. unfold MAX_FILE_CHUNK_SIZE. lia.
  - unfold overwritten_by, h. cbn [store]. rewrite lookup_empty. simpl. lia.
Defined.
Lemma derived_paths_disjoint_witness :
  is_under EVM_CURRENT_BLOCK (EVM_BLOCKS ++ ["1"]) = false.
Proof.
  refine (derived_paths_disjoint 1 [Byte.x11] [Byte.x22] [Byte.x33] _ _ _ _
            _ _ _ _ 4 0 _ _ _ _ _); try (vm_compute; reflexivity); lia.
Defined.
